(** * Ranking metrics of [stanscofi/cute_ranking.py]

    A shallow embedding of the ranking-evaluation functions of
    [cute_ranking.py] and the properties stated about them.

    Conventions of the embedding.
    - A Python call either returns a value or raises: [result A].
    - Relevance scores of the binary-relevance metrics are integers ([Z]);
      these metrics only test scores against zero ([!= 0], [nonzero()]) or,
      in [hit_rate_at_k], compare their sum with zero.
    - Floating-point results are idealised: a finite value is an exact
      rational ([Fin q]), and the IEEE results of a division by zero
      ([nan], [inf], [-inf]) are kept as separate values.  Rounding is not
      modelled.
    - The gain-based metrics ([dcg_at_k], [ndcg_at_k]) use [log2]; they are
      embedded over the real numbers (second part of the file), and once
      more in binary64 ([dcg_at_k_f64], [ndcg_at_k_f64]) to show where
      rounding departs from the exact result. *)

From Stdlib Require Import ZArith QArith List Bool Lia.
From Stdlib Require Import Reals Lra Permutation Sorted.
From Stdlib Require Import PrimFloat.
Import ListNotations.

(* ================================================================== *)
(** * Python and NumPy primitives *)
(* ================================================================== *)

Module Py.

(** The exceptions the module can raise. *)
Inductive exn : Type :=
  | ValueError
  | AssertionError
  | IndexError
  | ZeroDivisionError.

Inductive result (A : Type) : Type :=
  | Ok (a : A)
  | Raise (e : exn).
Arguments Ok {A} a.
Arguments Raise {A} e.

Definition bind {A B : Type} (m : result A) (f : A -> result B) : result B :=
  match m with
  | Ok a => f a
  | Raise e => Raise e
  end.

(** [assert c] *)
Definition py_assert (c : bool) : result unit :=
  if c then Ok tt else Raise AssertionError.

(** [len(r)] *)
Definition len {A : Type} (r : list A) : Z := Z.of_nat (length r).

(** [r[:k]]: [k = None] keeps the whole sequence; a negative [k] counts
    from the end; the bounds are clipped to the sequence. *)
Definition slice_to {A : Type} (r : list A) (k : option Z) : list A :=
  match k with
  | None => r
  | Some k =>
      if (k <? 0)%Z then firstn (Z.to_nat (len r + k)) r
      else firstn (Z.to_nat k) r
  end.

(** [r[-1]] *)
Definition last_item {A : Type} (r : list A) : result A :=
  match rev r with
  | [] => Raise IndexError
  | x :: _ => Ok x
  end.

(** [r[0]] *)
Definition first_item {A : Type} (r : list A) : result A :=
  match r with
  | [] => Raise IndexError
  | x :: _ => Ok x
  end.

(** Idealised [float64] values. *)
Inductive npfloat : Type :=
  | Fin (q : Q)
  | NaN
  | PInf
  | NInf.

Definition np_add (a b : npfloat) : npfloat :=
  match a, b with
  | Fin x, Fin y => Fin (x + y)
  | NaN, _ | _, NaN => NaN
  | PInf, NInf | NInf, PInf => NaN
  | PInf, _ | _, PInf => PInf
  | NInf, _ | _, NInf => NInf
  end.

(** NumPy's true division of a float by an integer: IEEE semantics, a zero
    divisor gives [nan] or an infinity (and a warning), never an
    exception. *)
Definition true_divide (a : npfloat) (n : Z) : npfloat :=
  match a with
  | Fin x =>
      if (n =? 0)%Z then
        match Qnum x with
        | Z0 => NaN
        | Zpos _ => PInf
        | Zneg _ => NInf
        end
      else Fin (x / inject_Z n)
  | NaN => NaN
  | PInf => if (n <? 0)%Z then NInf else PInf
  | NInf => if (n <? 0)%Z then PInf else NInf
  end.

(** Python's [a / b] on two [int]s. *)
Definition py_truediv (a b : Z) : result npfloat :=
  if (b =? 0)%Z then Raise ZeroDivisionError
  else Ok (Fin (inject_Z a / inject_Z b)).

(** The element types of the arrays the module handles, with the test
    [x != 0] and the conversion to a number used by [np.sum]/[np.mean]. *)
Class Dtype (A : Type) : Type := {
  is_nonzero : A -> bool;
  to_Z : A -> Z
}.

#[global] Instance Dtype_Z : Dtype Z := {
  is_nonzero x := negb (x =? 0)%Z;
  to_Z x := x
}.

#[global] Instance Dtype_bool : Dtype bool := {
  is_nonzero b := b;
  to_Z b := if b then 1%Z else 0%Z
}.

(** [np.asarray(r) != 0] *)
Definition ne0 {A : Type} `{Dtype A} (r : list A) : list bool :=
  map is_nonzero r.

(** The exact sum of an array: [np.sum(r)] on a boolean array (a count,
    which cannot leave [int64]) and the sum inside [np.mean], which NumPy
    accumulates in floating point.  The [int64] sum of an integer array
    is [np_sum_int64] below. *)
Definition np_sum {A : Type} `{Dtype A} (r : list A) : Z :=
  fold_left (fun acc x => (acc + to_Z x)%Z) r 0%Z.

(** [int64] arithmetic wraps around. *)
Definition int64_max : Z := (2 ^ 63 - 1)%Z.

Definition int64_wrap (z : Z) : Z := ((z + 2 ^ 63) mod 2 ^ 64 - 2 ^ 63)%Z.

(** [np.sum(r)] on an integer array: the entries (assumed to fit
    [int64], NumPy's integer type for a list of Python integers) are
    accumulated in [int64]. *)
Definition np_sum_int64 (r : list Z) : Z :=
  fold_left (fun acc x => int64_wrap (acc + x)) r 0%Z.

(** [np.mean(r)] on an integer or boolean array. *)
Definition np_mean {A : Type} `{Dtype A} (r : list A) : npfloat :=
  true_divide (Fin (inject_Z (np_sum r))) (len r).

(** [np.sum] and [np.mean] on a list of floats. *)
Definition np_fsum (l : list npfloat) : npfloat :=
  fold_left np_add l (Fin 0).

Definition np_fmean (l : list npfloat) : npfloat :=
  true_divide (np_fsum l) (len l).

(** [np.asarray(r).nonzero()[0]]: the 0-based indices of the nonzero
    entries, in increasing order. *)
Fixpoint nonzero_from {A : Type} `{Dtype A} (i : Z) (r : list A) : list Z :=
  match r with
  | [] => []
  | x :: r' =>
      if is_nonzero x then i :: nonzero_from (i + 1)%Z r'
      else nonzero_from (i + 1)%Z r'
  end.

Definition nonzero {A : Type} `{Dtype A} (r : list A) : list Z :=
  nonzero_from 0%Z r.

(** [range(n)] *)
Definition range (n : Z) : list Z :=
  map Z.of_nat (seq 0 (Z.to_nat n)).

(** [r[i]]: a negative index counts from the end; an index outside the
    sequence raises [IndexError]. *)
Definition item {A : Type} (r : list A) (i : Z) : result A :=
  if (i <? 0)%Z then
    if (len r + i <? 0)%Z then Raise IndexError
    else first_item (skipn (Z.to_nat (len r + i)) r)
  else first_item (skipn (Z.to_nat i) r).

(** [r[i:]], with the same conventions as [slice_to]. *)
Definition slice_from {A : Type} (r : list A) (i : Z) : list A :=
  if (i <? 0)%Z then skipn (Z.to_nat (len r + i)) r
  else skipn (Z.to_nat i) r.

(** [np.arange(a, b)] on integers. *)
Definition arange (a b : Z) : list Z :=
  map (fun i => (a + Z.of_nat i)%Z) (seq 0 (Z.to_nat (b - a))).

End Py.

Import Py.

Notation "x <- m ;; f" := (bind m (fun x => f))
  (at level 61, m at next level, right associativity).
Notation "m ;;; f" := (bind m (fun _ => f))
  (at level 61, right associativity).

(** Sequencing a list of calls: the first exception propagates. *)
Fixpoint mapM {A B : Type} (f : A -> result B) (l : list A) : result (list B) :=
  match l with
  | [] => Ok []
  | x :: l' =>
      y <- f x ;;
      ys <- mapM f l' ;;
      Ok (y :: ys)
  end.

(* ================================================================== *)
(** * The binary-relevance metrics *)
(* ================================================================== *)

(** [hit_rate_at_k(rs, k)] *)
Definition hit_rate_at_k (rs : list (list Z)) (k : Z) : result npfloat :=
  bad <- (if (k <? 1)%Z then Ok true
          else r0 <- first_item rs ;; Ok (k >? len r0)%Z) ;;
  if (bad : bool) then Raise ValueError
  else
    let hits :=
      fold_left
        (fun hits r => if (np_sum_int64 (slice_to r (Some k)) >? 0)%Z
                       then (hits + 1)%Z else hits)
        rs 0%Z in
    py_truediv hits (len rs).

(** [mean_reciprocal_rank(rs)] *)
Definition mean_reciprocal_rank (rs : list (list Z)) : result npfloat :=
  let rs := map nonzero rs in
  Ok (np_fmean (map (fun r => match r with
                              | [] => Fin 0
                              | r0 :: _ => true_divide (Fin 1) (r0 + 1)
                              end) rs)).

(** [r_precision(r)] *)
Definition r_precision (r : list Z) : result npfloat :=
  let r := ne0 r in
  let z := nonzero r in
  if (len z =? 0)%Z then Ok (Fin 0)
  else
    zl <- last_item z ;;
    Ok (np_mean (slice_to r (Some (zl + 1)%Z))).

(** [precision_at_k(r, k=None)] *)
Definition precision_at_k {A : Type} `{Dtype A} (r : list A) (k : option Z)
  : result npfloat :=
  py_assert (match k with None => true | Some k => (k >=? 1)%Z end) ;;;
  let r := ne0 (slice_to r k) in
  match k with
  | Some k' => if negb (len r =? k')%Z then Raise ValueError else Ok (np_mean r)
  | None => Ok (np_mean r)
  end.

(** [recall_at_k(r, max_rel, k=None)] *)
Definition recall_at_k (r : list Z) (max_rel : Z) (k : option Z)
  : result npfloat :=
  py_assert (match k with None => true | Some k => (k >=? 1)%Z end) ;;;
  let r := slice_to r k in
  let r := ne0 r in
  if (np_sum r >? max_rel)%Z then Raise ValueError
  else Ok (true_divide (Fin (inject_Z (np_sum r))) max_rel).

(** [average_precision(r)] *)
Definition average_precision (r : list Z) : result npfloat :=
  let r := ne0 r in
  out <- mapM (fun k => b <- item r k ;;
                        if (b : bool)
                        then p <- precision_at_k r (Some (k + 1)%Z) ;; Ok [p]
                        else Ok [])
              (range (len r)) ;;
  let out := concat out in
  match out with
  | [] => Ok (Fin 0)
  | _ => Ok (np_fmean out)
  end.

(** ** The remaining binary-relevance metrics *)

(** Product and quotient of two [float64] values, with the IEEE results
    for infinities and for a zero divisor (the sign of a zero is not
    modelled: a zero divisor counts as [+0.0]). *)
Definition np_mul (a b : npfloat) : npfloat :=
  match a, b with
  | Fin x, Fin y => Fin (x * y)
  | NaN, _ | _, NaN => NaN
  | Fin x, PInf | PInf, Fin x =>
      match Qnum x with Z0 => NaN | Zpos _ => PInf | Zneg _ => NInf end
  | Fin x, NInf | NInf, Fin x =>
      match Qnum x with Z0 => NaN | Zpos _ => NInf | Zneg _ => PInf end
  | PInf, PInf | NInf, NInf => PInf
  | PInf, NInf | NInf, PInf => NInf
  end.

Definition np_div (a b : npfloat) : npfloat :=
  match a, b with
  | NaN, _ | _, NaN => NaN
  | Fin x, Fin y =>
      match Qnum y with
      | Z0 => match Qnum x with Z0 => NaN | Zpos _ => PInf | Zneg _ => NInf end
      | _ => Fin (x / y)
      end
  | Fin _, _ => Fin 0
  | PInf, Fin y => match Qnum y with Zneg _ => NInf | _ => PInf end
  | NInf, Fin y => match Qnum y with Zneg _ => PInf | _ => NInf end
  | _, _ => NaN
  end.

(** [mean_rank(rs)] *)
Definition mean_rank (rs : list (list Z)) : result npfloat :=
  _rs <- mapM (fun r =>
                 let ids := nonzero r in
                 if (len ids =? 0)%Z then Ok 0%Z
                 else i <- item ids 0 ;; Ok (i + 1)%Z) rs ;;
  Ok (np_mean _rs).

(** [f1_score_at_k(r, max_rel, k=None)] *)
Definition f1_score_at_k (r : list Z) (max_rel : Z) (k : option Z)
  : result npfloat :=
  p <- precision_at_k r k ;;
  r <- recall_at_k r max_rel k ;;
  Ok (np_div (np_mul (np_mul (Fin 2) p) r) (np_add p r)).

(** [mean_average_precision(rs)] *)
Definition mean_average_precision (rs : list (list Z)) : result npfloat :=
  aps <- mapM average_precision rs ;;
  Ok (np_fmean aps).

(* ================================================================== *)
(** * The gain-based metrics, over the real numbers *)
(* ================================================================== *)

Local Open Scope R_scope.

(** [np.log2] *)
Definition log2 (x : R) : R := ln x / ln 2.

Definition np_log2 (l : list Z) : list R := map (fun i => log2 (IZR i)) l.

(** Elementwise [r / d] of two arrays of the same shape; NumPy raises
    [ValueError] when the shapes differ (broadcasting of arrays of size
    one is not modelled). *)
Fixpoint np_divide (r d : list R) : result (list R) :=
  match r, d with
  | [], [] => Ok []
  | x :: r', y :: d' => q <- np_divide r' d' ;; Ok (x / y :: q)
  | _, _ => Raise ValueError
  end.

(** [np.sum] of a float array, as an exact real sum: no rounding (the
    rounded sum is [np_sum_f64] below). *)
Definition np_rsum (l : list R) : R := fold_left Rplus l 0.

(** [sorted(r, reverse=True)]: the values of [r] in descending order. *)
Fixpoint insert_desc (x : R) (l : list R) : list R :=
  match l with
  | [] => [x]
  | y :: l' => if Rle_dec y x then x :: l else y :: insert_desc x l'
  end.

Definition sorted_reverse (r : list R) : list R :=
  fold_right insert_desc [] r.

(** [dcg_at_k(r, k, method=0)] *)
Definition dcg_at_k (r : list R) (k : option Z) (method : Z) : result R :=
  let r := slice_to r k in
  if negb (len r =? 0)%Z then
    if (method =? 0)%Z then
      r0 <- item r 0 ;;
      q <- np_divide (slice_from r 1) (np_log2 (arange 2 (len r + 1))) ;;
      Ok (r0 + np_rsum q)
    else if (method =? 1)%Z then
      q <- np_divide r (np_log2 (arange 2 (len r + 2))) ;;
      Ok (np_rsum q)
    else Raise ValueError
  else Ok 0.

(** [ndcg_at_k(r, k, method=0)] *)
Definition ndcg_at_k (r : list R) (k : option Z) (method : Z) : result R :=
  dcg_max <- dcg_at_k (sorted_reverse r) k method ;;
  if Req_dec_T dcg_max 0 then Ok 0
  else
    d <- dcg_at_k r k method ;;
    Ok (d / dcg_max).

Local Close Scope R_scope.

(* ================================================================== *)
(** * The gain-based metrics in binary64 *)
(* ================================================================== *)

(** The same two functions with the arithmetic the program runs: IEEE
    binary64, through the kernel's primitive floats.  [np.log2] is
    NumPy's; its results on the integers of [np.arange] are a parameter
    [log2] of the embedding.  [np.sum] adds from left to right, as NumPy
    does on arrays of fewer than 8 elements (longer arrays are summed in
    blocks, which is not modelled).  [nan] gains are not considered. *)

Fixpoint np_divide_f64 (r d : list float) : result (list float) :=
  match r, d with
  | [], [] => Ok []
  | x :: r', y :: d' => q <- np_divide_f64 r' d' ;; Ok ((x / y)%float :: q)
  | _, _ => Raise ValueError
  end.

Definition np_sum_f64 (l : list float) : float :=
  fold_left PrimFloat.add l 0%float.

Fixpoint insert_desc_f64 (x : float) (l : list float) : list float :=
  match l with
  | [] => [x]
  | y :: l' => if (y <=? x)%float then x :: l else y :: insert_desc_f64 x l'
  end.

Definition sorted_reverse_f64 (r : list float) : list float :=
  fold_right insert_desc_f64 [] r.

(** [dcg_at_k(r, k, method=0)] *)
Definition dcg_at_k_f64 (log2 : Z -> float)
    (r : list float) (k : option Z) (method : Z) : result float :=
  let r := slice_to r k in
  if negb (len r =? 0)%Z then
    if (method =? 0)%Z then
      r0 <- item r 0 ;;
      q <- np_divide_f64 (slice_from r 1)
             (map log2 (arange 2 (len r + 1))) ;;
      Ok (r0 + np_sum_f64 q)%float
    else if (method =? 1)%Z then
      q <- np_divide_f64 r (map log2 (arange 2 (len r + 2))) ;;
      Ok (np_sum_f64 q)
    else Raise ValueError
  else Ok 0%float.

(** [ndcg_at_k(r, k, method=0)] *)
Definition ndcg_at_k_f64 (log2 : Z -> float)
    (r : list float) (k : option Z) (method : Z) : result float :=
  dcg_max <- dcg_at_k_f64 log2 (sorted_reverse_f64 r) k method ;;
  if (dcg_max =? 0)%float then Ok 0%float
  else
    d <- dcg_at_k_f64 log2 r k method ;;
    Ok (d / dcg_max)%float.

(** The binary64 values of [np.log2] at 2, 3 and 4: exact at the powers
    of two, [0x1.95c01a39fbd68p+0] (1.584962500721156) at 3.  No other
    argument is tabulated. *)
Definition log2_table (i : Z) : float :=
  match i with
  | 2%Z => 1%float
  | 3%Z => 0x1.95c01a39fbd68p+0%float
  | 4%Z => 2%float
  | _ => nan
  end.

(* ================================================================== *)
(** * Vocabulary of the specification *)
(* ================================================================== *)

(** Number of relevant (nonzero) entries of a vector. *)
Definition count_relevant (r : list Z) : Z :=
  Z.of_nat (length (filter (fun x => negb (x =? 0)%Z) r)).

(** The window a cutoff selects: the first [k] positions, or the whole
    vector when the cutoff is omitted. *)
Definition first_k {A : Type} (r : list A) (k : option Z) : list A :=
  match k with
  | None => r
  | Some k => firstn (Z.to_nat k) r
  end.

(** The fraction [a / b] of two integers. *)
Definition frac (a b : Z) : Q := inject_Z a / inject_Z b.

(** A vector is binary when its entries are 0 or 1. *)
Definition binary (r : list Z) : Prop :=
  Forall (fun x => x = 0%Z \/ x = 1%Z) r.

(** Arithmetic mean of a non-empty list of rationals. *)
Definition Qsum (l : list Q) : Q := fold_right Qplus 0 l.
Definition Qmean (l : list Q) : Q := Qsum l / inject_Z (len l).

(** A cutoff accepted by the [assert] of [precision_at_k] and
    [recall_at_k]: omitted, or at least 1. *)
Definition valid_cutoff (k : option Z) : Prop :=
  match k with
  | None => True
  | Some k => (1 <= k)%Z
  end.

(** The 1-based ranks of the relevant entries of a vector. *)
Definition relevant_ranks (r : list Z) : list Z :=
  filter (fun i => negb (nth (Z.to_nat (i - 1)) r 0 =? 0)%Z)
         (map Z.of_nat (seq 1 (length r))).

(** [reciprocal_rank r q]: [q] is the contribution of the vector [r], that
    is 0 when [r] has no relevant entry, and otherwise 1 over the 1-based
    rank of its first relevant entry. *)
Definition reciprocal_rank (r : list Z) (q : Q) : Prop :=
  (Forall (fun x => x = 0%Z) r /\ q = 0) \/
  (exists i : nat,
     (i < length r)%nat /\ nth i r 0%Z <> 0%Z /\
     (forall j : nat, (j < i)%nat -> nth j r 0%Z = 0%Z) /\
     q = frac 1 (Z.of_nat i + 1)).

(** The term the list comprehension of [mean_reciprocal_rank] builds for
    one vector. *)
Definition rr_term (r : list Z) : Q :=
  match nonzero r with
  | [] => 0
  | i :: _ => frac 1 (i + 1)
  end.

(** A vector has a relevant entry. *)
Definition has_relevant (r : list Z) : bool :=
  existsb (fun x => negb (x =? 0)%Z) r.

(** Fraction of the vectors with a relevant entry in their first [k]
    positions. *)
Definition hit_fraction (rs : list (list Z)) (k : Z) : Q :=
  frac (len (filter (fun r => has_relevant (first_k r (Some k))) rs))
       (len rs).

(** The test of the loop body of [hit_rate_at_k]. *)
Definition hit (k : Z) (r : list Z) : bool :=
  (np_sum_int64 (slice_to r (Some k)) >? 0)%Z.

(** [first_rank r n]: [n] is the 1-based rank of the first relevant
    entry of [r], or 0 when [r] has none. *)
Definition first_rank (r : list Z) (n : Z) : Prop :=
  (Forall (fun x => x = 0%Z) r /\ n = 0%Z) \/
  (exists i : nat,
     (i < length r)%nat /\ nth i r 0%Z <> 0%Z /\
     (forall j : nat, (j < i)%nat -> nth j r 0%Z = 0%Z) /\
     n = (Z.of_nat i + 1)%Z).

(** Sum of a list of integers. *)
Definition Zsum (l : list Z) : Z := fold_right Z.add 0%Z l.

(** The sum of the first [k] entries of [r] fits [int64]. *)
Definition window_fits (k : Z) (r : list Z) : Prop :=
  (Zsum (first_k r (Some k)) <= int64_max)%Z.

(** A rational in the unit interval. *)
Definition unit_interval (q : Q) : Prop := 0 <= q <= 1.

(** ** Discounted sums *)

Local Open Scope R_scope.

(** The discount the specification gives to the element at the 1-based
    position [i]. *)
Definition discount (method : Z) (i : Z) : R :=
  if (method =? 0)%Z then
    if (i =? 1)%Z then 1 else log2 (IZR i)
  else log2 (IZR (i + 1)).

(** Sum of the elements of [l], placed at positions [i], [i + 1], ...,
    each divided by its discount. *)
Fixpoint discounted_sum (method : Z) (i : Z) (l : list R) : R :=
  match l with
  | [] => 0
  | x :: l' => x / discount method i + discounted_sum method (i + 1) l'
  end.

Definition dcg_spec (method : Z) (l : list R) : R :=
  discounted_sum method 1 l.

(** Sum of the elements of [l], the one at offset [j] divided by
    [log2 (a + j)]: what the array expressions of [dcg_at_k] compute. *)
Fixpoint log_sum (a : Z) (l : list R) : R :=
  match l with
  | [] => 0
  | x :: l' => x / log2 (IZR a) + log_sum (a + 1) l'
  end.

(** Sum of the elements of [l], the one at offset [j] weighted by
    [w (i + j)]. *)
Fixpoint weighted_sum (w : nat -> R) (i : nat) (l : list R) : R :=
  match l with
  | [] => 0
  | x :: l' => x * w i + weighted_sum w (S i) l'
  end.

(** The weight of the element at the 0-based offset [j]: the inverse of
    the discount of the 1-based position [j + 1]. *)
Definition gain_weight (method : Z) (j : nat) : R :=
  / discount method (Z.of_nat j + 1).

Local Close Scope R_scope.

(* ================================================================== *)
(** * Basic facts on the primitives *)
(* ================================================================== *)

Section Primitives.

Context {A : Type} `{DA : Dtype A}.

Lemma len_nonneg (r : list A) : (0 <= len r)%Z.
Proof. unfold len. lia. Qed.

Lemma len_cons (x : A) (r : list A) : len (x :: r) = (len r + 1)%Z.
Proof. unfold len. simpl length. lia. Qed.

Lemma len_pos (r : list A) : r <> [] -> (1 <= len r)%Z.
Proof.
  destruct r as [|x r']; [contradiction|]. intros _.
  rewrite len_cons. pose proof (len_nonneg r'). lia.
Qed.

Lemma len_firstn (n : nat) (r : list A) :
  len (firstn n r) = Z.min (Z.of_nat n) (len r).
Proof. unfold len. rewrite length_firstn. lia. Qed.

Lemma len_ne0 (r : list A) : len (ne0 r) = len r.
Proof. unfold len, ne0. now rewrite length_map. Qed.

Lemma np_sum_acc (r : list A) (a : Z) :
  fold_left (fun acc x => (acc + to_Z x)%Z) r a = (a + np_sum r)%Z.
Proof.
  unfold np_sum. revert a.
  induction r as [|x r IH]; intros a; simpl.
  - lia.
  - rewrite IH, (IH (to_Z x)). lia.
Qed.

Lemma np_sum_cons (x : A) (r : list A) :
  np_sum (x :: r) = (to_Z x + np_sum r)%Z.
Proof. unfold np_sum at 1. simpl. now rewrite np_sum_acc. Qed.

Lemma slice_to_valid (r : list A) (k : option Z) :
  match k with None => True | Some k => (0 <= k)%Z end ->
  slice_to r k = first_k r k.
Proof.
  destruct k as [k|]; simpl; [|reflexivity].
  intros Hk. destruct (Z.ltb_spec k 0); [lia|reflexivity].
Qed.

Lemma slice_to_map {B : Type} (f : A -> B) (r : list A) (k : option Z) :
  slice_to (map f r) k = map f (slice_to r k).
Proof.
  destruct k as [k|]; simpl; [|reflexivity].
  unfold len. rewrite length_map.
  destruct (k <? 0)%Z; now rewrite firstn_map.
Qed.

Lemma len_slice_to (r : list A) (k : option Z) :
  len (slice_to r k) =
  match k with
  | None => len r
  | Some k => if (k <? 0)%Z then Z.max 0 (len r + k) else Z.min k (len r)
  end.
Proof.
  destruct k as [k|]; simpl; [|reflexivity].
  pose proof (len_nonneg r).
  destruct (Z.ltb_spec k 0); rewrite len_firstn; lia.
Qed.

End Primitives.

Lemma ne0_app {A : Type} `{Dtype A} (a b : list A) :
  ne0 (a ++ b) = ne0 a ++ ne0 b.
Proof. unfold ne0. apply map_app. Qed.

Lemma ne0_cons {A : Type} `{Dtype A} (x : A) (r : list A) :
  ne0 (x :: r) = is_nonzero x :: ne0 r.
Proof. reflexivity. Qed.

Lemma ne0_bool (r : list bool) : ne0 r = r.
Proof. unfold ne0. simpl. apply map_id. Qed.

Lemma np_sum_ne0 (r : list Z) : np_sum (ne0 r) = count_relevant r.
Proof.
  unfold count_relevant.
  induction r as [|x r IH].
  - reflexivity.
  - change (ne0 (x :: r)) with (is_nonzero x :: ne0 r).
    rewrite np_sum_cons, IH. simpl filter. simpl is_nonzero.
    destruct (x =? 0)%Z; simpl negb; cbn [to_Z Dtype_bool length]; lia.
Qed.

Lemma count_relevant_bounds (r : list Z) :
  (0 <= count_relevant r <= len r)%Z.
Proof.
  unfold count_relevant, len.
  pose proof (filter_length_le (fun x => negb (x =? 0)%Z) r). lia.
Qed.

Lemma frac_bounds (c n : Z) :
  (0 <= c <= n)%Z -> (0 < n)%Z -> 0 <= frac c n <= 1.
Proof.
  intros [H0 Hc] Hn. unfold frac.
  assert (Hq : 0 < inject_Z n) by (now rewrite (Zlt_Qlt 0 n) in Hn).
  split.
  - apply Qle_shift_div_l; [exact Hq|].
    rewrite Qmult_0_l. now rewrite (Zle_Qle 0 c) in H0.
  - apply Qle_shift_div_r; [exact Hq|].
    rewrite Qmult_1_l. now rewrite (Zle_Qle c n) in Hc.
Qed.

Lemma true_divide_int (c n : Z) :
  n <> 0%Z -> true_divide (Fin (inject_Z c)) n = Fin (frac c n).
Proof.
  intros Hn. unfold true_divide, frac.
  destruct (Z.eqb_spec n 0); [contradiction|reflexivity].
Qed.

Lemma np_mean_ne0 (r : list Z) :
  r <> [] -> np_mean (ne0 r) = Fin (frac (count_relevant r) (len r)).
Proof.
  intros Hr. unfold np_mean.
  rewrite np_sum_ne0, len_ne0. apply true_divide_int.
  pose proof (len_pos r Hr). lia.
Qed.

Lemma valid_cutoff_assert (k : option Z) :
  valid_cutoff k ->
  py_assert (match k with None => true | Some k => (k >=? 1)%Z end) = Ok tt.
Proof.
  destruct k as [k|]; simpl; [|reflexivity].
  intros Hk. destruct (Z.geb_spec k 1); [reflexivity|lia].
Qed.

Lemma valid_cutoff_slice {A : Type} (r : list A) (k : option Z) :
  valid_cutoff k -> slice_to r k = first_k r k.
Proof.
  intros Hk. apply slice_to_valid. destruct k; simpl in *; [lia|exact I].
Qed.

(* ================================================================== *)
(** * [precision_at_k] *)
(* ================================================================== *)

Section Precision.

Variable r : list Z.

Lemma precision_at_k_short (k : Z) :
  (len r < k)%Z -> precision_at_k r (Some k) = Raise ValueError.
Proof.
  intros Hk. pose proof (len_nonneg r) as Hr.
  unfold precision_at_k.
  rewrite (valid_cutoff_assert (Some k)) by (simpl; lia).
  cbn [bind]. rewrite len_ne0, len_slice_to.
  destruct (Z.ltb_spec k 0); [lia|].
  destruct (Z.eqb_spec (Z.min k (len r)) k); [lia|reflexivity].
Qed.

Lemma precision_at_k_some (k : Z) :
  (1 <= k <= len r)%Z ->
  precision_at_k r (Some k) =
  Ok (Fin (frac (count_relevant (first_k r (Some k))) k)).
Proof.
  intros Hk. unfold precision_at_k.
  rewrite (valid_cutoff_assert (Some k)) by (simpl; lia).
  cbn [bind]. rewrite (valid_cutoff_slice r (Some k)) by (simpl; lia).
  assert (Hlen : len (first_k r (Some k)) = k).
  { simpl. rewrite len_firstn. lia. }
  rewrite len_ne0, Hlen, Z.eqb_refl. cbn [negb].
  rewrite np_mean_ne0, Hlen; [reflexivity|].
  intros E. rewrite E in Hlen. unfold len in Hlen. simpl in Hlen. lia.
Qed.

Lemma precision_at_k_none :
  r <> [] ->
  precision_at_k r None = Ok (Fin (frac (count_relevant r) (len r))).
Proof.
  intros Hr. unfold precision_at_k. cbn [py_assert bind slice_to].
  now rewrite np_mean_ne0.
Qed.

End Precision.

(** C5 (as amended).  [precision_at_k(r, k)] raises [ValueError] when [k]
    is given and the vector has fewer than [k] elements.  For every vector
    (binary or not) and every [k] with [1 <= k <= len(r)] it returns the
    number of nonzero entries among the first [k] positions divided by [k];
    with [k] omitted and a non-empty vector it returns the number of
    nonzero entries divided by [len(r)].  In both cases the value lies in
    [0, 1]. *)
Theorem precision_at_k_spec (r : list Z) :
  (forall k : Z, (len r < k)%Z ->
     precision_at_k r (Some k) = Raise ValueError) /\
  (forall k : Z, (1 <= k <= len r)%Z ->
     precision_at_k r (Some k) =
       Ok (Fin (frac (count_relevant (first_k r (Some k))) k)) /\
     0 <= frac (count_relevant (first_k r (Some k))) k <= 1) /\
  (r <> [] ->
     precision_at_k r None = Ok (Fin (frac (count_relevant r) (len r))) /\
     0 <= frac (count_relevant r) (len r) <= 1).
Proof.
  split; [|split].
  - apply precision_at_k_short.
  - intros k Hk. split; [now apply precision_at_k_some|].
    apply frac_bounds; [|lia].
    pose proof (count_relevant_bounds (first_k r (Some k))) as Hc.
    simpl in *. rewrite len_firstn in Hc. lia.
  - intros Hr. split; [now apply precision_at_k_none|].
    apply frac_bounds; [apply count_relevant_bounds|].
    pose proof (len_pos r Hr). lia.
Qed.

Lemma precision_at_k_spec_witness :
  precision_at_k [1; 0]%Z (Some 3%Z) = Raise ValueError /\
  precision_at_k [1; 0; 1]%Z (Some 2%Z) =
    Ok (Fin (frac (count_relevant (first_k [1; 0; 1]%Z (Some 2%Z))) 2)) /\
  precision_at_k [1; 0; 1]%Z None =
    Ok (Fin (frac (count_relevant [1; 0; 1]%Z) (len [1; 0; 1]%Z))).
Proof.
  split; [|split].
  - apply (proj1 (precision_at_k_spec [1; 0]%Z) 3%Z). vm_compute. reflexivity.
  - apply (proj1 (proj2 (precision_at_k_spec [1; 0; 1]%Z)) 2%Z).
    vm_compute. split; discriminate.
  - apply (proj2 (proj2 (precision_at_k_spec [1; 0; 1]%Z))). discriminate.
Defined.

(** On the empty vector with the cutoff omitted, [np.mean] of an empty
    array is [nan]: no value in [0, 1] is returned. *)
Lemma precision_at_k_empty_nan :
  binary [] /\ valid_cutoff None /\
  precision_at_k ([] : list Z) None = Ok NaN /\
  ~ (exists q : Q, precision_at_k ([] : list Z) None = Ok (Fin q) /\
                   0 <= q <= 1).
Proof.
  split; [constructor|]. split; [exact I|]. split; [reflexivity|].
  intros [q [Hq _]]. discriminate Hq.
Qed.

(** C10.  For a non-empty vector, omitting the cutoff is the same as
    passing the length of the vector. *)
Theorem precision_at_k_omitted_cutoff (r : list Z) :
  r <> [] -> precision_at_k r None = precision_at_k r (Some (len r)).
Proof.
  intros Hr.
  pose proof (len_pos r Hr) as Hlen.
  rewrite precision_at_k_none by assumption.
  rewrite precision_at_k_some by lia.
  simpl. unfold len. rewrite Nat2Z.id, firstn_all. reflexivity.
Qed.

Lemma precision_at_k_omitted_cutoff_witness :
  precision_at_k [0; 1; 1]%Z None = precision_at_k [0; 1; 1]%Z (Some 3%Z).
Proof.
  apply (precision_at_k_omitted_cutoff [0; 1; 1]%Z). discriminate.
Defined.

(* ================================================================== *)
(** * [recall_at_k] *)
(* ================================================================== *)

Lemma recall_at_k_unfold (r : list Z) (max_rel : Z) (k : option Z) :
  valid_cutoff k ->
  recall_at_k r max_rel k =
  if (count_relevant (first_k r k) >? max_rel)%Z then Raise ValueError
  else Ok (true_divide (Fin (inject_Z (count_relevant (first_k r k)))) max_rel).
Proof.
  intros Hk. unfold recall_at_k.
  rewrite valid_cutoff_assert by assumption. cbn [bind].
  now rewrite valid_cutoff_slice, np_sum_ne0.
Qed.

(** C3 (as amended).  For a valid cutoff (omitted or [>= 1]),
    [recall_at_k(r, max_rel, k)] raises [ValueError] exactly when the
    number of nonzero entries in the window exceeds [max_rel]; otherwise,
    when [max_rel] is not zero, it returns that number divided by
    [max_rel], a value in [0, 1]. *)
Theorem recall_at_k_spec (r : list Z) (max_rel : Z) (k : option Z) :
  valid_cutoff k ->
  (recall_at_k r max_rel k = Raise ValueError <->
     (max_rel < count_relevant (first_k r k))%Z) /\
  ((count_relevant (first_k r k) <= max_rel)%Z -> max_rel <> 0%Z ->
     recall_at_k r max_rel k =
       Ok (Fin (frac (count_relevant (first_k r k)) max_rel)) /\
     0 <= frac (count_relevant (first_k r k)) max_rel <= 1).
Proof.
  intros Hk. rewrite recall_at_k_unfold by assumption.
  pose proof (count_relevant_bounds (first_k r k)) as [Hc0 _].
  destruct (Z.gtb_spec (count_relevant (first_k r k)) max_rel) as [Hgt|Hle].
  - split; [split; [lia|reflexivity]|]. lia.
  - split; [split; [discriminate|lia]|].
    intros _ Hm. rewrite true_divide_int by assumption.
    split; [reflexivity|]. apply frac_bounds; lia.
Qed.

Lemma recall_at_k_spec_witness :
  (recall_at_k [1; 1; 0]%Z 1 (Some 2%Z) = Raise ValueError <->
     (1 < count_relevant (first_k [1; 1; 0]%Z (Some 2%Z)))%Z) /\
  recall_at_k [1; 0; 1]%Z 4 None =
    Ok (Fin (frac (count_relevant (first_k [1; 0; 1]%Z None)) 4)).
Proof.
  split.
  - apply (proj1 (recall_at_k_spec [1; 1; 0]%Z 1 (Some 2%Z) ltac:(simpl; lia))).
  - apply (proj2 (recall_at_k_spec [1; 0; 1]%Z 4 None I)).
    + vm_compute. discriminate.
    + discriminate.
Defined.

(** With [max_rel = 0] and no relevant entry the count does not exceed
    [max_rel], nothing is raised, and the quotient [0 / 0] is [nan]. *)
Lemma recall_at_k_zero_max_rel :
  valid_cutoff None /\
  (count_relevant (first_k [0]%Z None) <= 0)%Z /\
  recall_at_k [0]%Z 0 None = Ok NaN /\
  ~ (exists q : Q, recall_at_k [0]%Z 0 None = Ok (Fin q) /\ 0 <= q <= 1).
Proof.
  split; [exact I|]. split; [vm_compute; discriminate|].
  split; [reflexivity|].
  intros [q [Hq _]]. discriminate Hq.
Qed.

(* ================================================================== *)
(** * [average_precision] *)
(* ================================================================== *)

Section ListFacts.

Context {A B : Type}.

Lemma mapM_ok (f : A -> result B) (g : A -> B) (l : list A) :
  (forall x, In x l -> f x = Ok (g x)) -> mapM f l = Ok (map g l).
Proof.
  induction l as [|x l IH]; intros Hf; simpl.
  - reflexivity.
  - rewrite (Hf x) by now left. cbn [bind].
    rewrite IH by (intros y Hy; apply Hf; now right). reflexivity.
Qed.

Lemma concat_guard (t : A -> bool) (h : A -> B) (l : list A) :
  concat (map (fun x => if t x then [h x] else []) l) = map h (filter t l).
Proof.
  induction l as [|x l IH]; simpl; [reflexivity|].
  rewrite IH. now destruct (t x).
Qed.

Lemma filter_map_swap (f : B -> bool) (g : A -> B) (l : list A) :
  filter f (map g l) = map g (filter (fun x => f (g x)) l).
Proof.
  induction l as [|x l IH]; simpl; [reflexivity|].
  rewrite IH. now destruct (f (g x)).
Qed.

Lemma Forall_first_n (P : A -> Prop) (n : nat) (l : list A) :
  Forall P l -> Forall P (firstn n l).
Proof.
  intros Hl. revert n.
  induction Hl as [|x l Hx _ IH]; intros [|n]; simpl; constructor; auto.
Qed.

Lemma first_item_skipn (l : list A) (n : nat) (d : A) :
  (n < length l)%nat -> first_item (skipn n l) = Ok (nth n l d).
Proof.
  revert l. induction n as [|n IH]; intros [|x l] Hn; simpl in *;
    try lia; [reflexivity|]. apply IH. lia.
Qed.

End ListFacts.

Lemma item_nth {A : Type} (l : list A) (i : Z) (d : A) :
  (0 <= i < len l)%Z -> item l i = Ok (nth (Z.to_nat i) l d).
Proof.
  intros Hi. unfold item.
  destruct (Z.ltb_spec i 0); [lia|].
  apply first_item_skipn. unfold len in Hi. lia.
Qed.

Lemma precision_at_k_ne0 (r : list Z) (k : option Z) :
  precision_at_k (ne0 r) k = precision_at_k r k.
Proof.
  assert (E : ne0 (slice_to (ne0 r) k) = ne0 (slice_to r k)).
  { rewrite ne0_bool. unfold ne0. apply slice_to_map. }
  unfold precision_at_k. now rewrite E.
Qed.

Lemma np_fsum_Fin (ps : list Q) (a : Q) :
  fold_left np_add (map Fin ps) (Fin a) = Fin (fold_left Qplus ps a).
Proof.
  revert a. induction ps as [|p ps IH]; intros a; simpl; [reflexivity|].
  apply IH.
Qed.

Lemma fold_left_Qplus (ps : list Q) (a : Q) :
  fold_left Qplus ps a == a + Qsum ps.
Proof.
  revert a. induction ps as [|p ps IH]; intros a; simpl.
  - ring.
  - rewrite IH. ring.
Qed.

(** [np.mean] of a non-empty list of finite values is their arithmetic
    mean. *)
Lemma np_fmean_Fin (ps : list Q) :
  ps <> [] ->
  exists q : Q, np_fmean (map Fin ps) = Fin q /\ q == Qmean ps.
Proof.
  intros Hps. unfold np_fmean, np_fsum.
  rewrite np_fsum_Fin. unfold true_divide.
  assert (Hlen : len (map Fin ps) = len ps)
    by (unfold len; now rewrite length_map).
  rewrite Hlen. pose proof (len_pos ps Hps) as Hpos.
  destruct (Z.eqb_spec (len ps) 0); [lia|].
  eexists; split; [reflexivity|].
  unfold Qmean. now rewrite fold_left_Qplus, Qplus_0_l.
Qed.

Lemma relevant_ranks_range (r : list Z) :
  relevant_ranks r =
  map (fun k => (k + 1)%Z)
      (filter (fun k => is_nonzero (nth (Z.to_nat k) r 0%Z))
              (range (len r))).
Proof.
  unfold relevant_ranks, range, len. rewrite Nat2Z.id.
  rewrite <- seq_shift, !map_map, !filter_map_swap, map_map.
  erewrite filter_ext.
  - apply map_ext. intros n. lia.
  - intros n. simpl is_nonzero.
    now replace (Z.to_nat (Z.of_nat (S n) - 1)) with (Z.to_nat (Z.of_nat n))
      by lia.
Qed.

Lemma In_range (n k : Z) : In k (range n) <-> (0 <= k < n)%Z.
Proof.
  unfold range. rewrite in_map_iff. split.
  - intros [i [<- Hi]]. apply in_seq in Hi. lia.
  - intros Hk. exists (Z.to_nat k). split; [lia|]. apply in_seq. lia.
Qed.

(** The value [average_precision] computes, before the final mean. *)
Lemma average_precision_unfold (r : list Z) :
  average_precision r =
  match map (fun i => Fin (frac (count_relevant (first_k r (Some i))) i))
            (relevant_ranks r) with
  | [] => Ok (Fin 0)
  | out => Ok (np_fmean out)
  end.
Proof.
  unfold average_precision.
  rewrite (mapM_ok _
    (fun k => if is_nonzero (nth (Z.to_nat k) r 0%Z)
              then [Fin (frac (count_relevant (first_k r (Some (k + 1)%Z)))
                              (k + 1))]
              else [])).
  - cbn [bind]. rewrite concat_guard, relevant_ranks_range, map_map, len_ne0.
    now destruct (map _ _).
  - intros k Hk. apply In_range in Hk. rewrite len_ne0 in Hk.
    rewrite (item_nth _ _ false) by (now rewrite len_ne0).
    cbn [bind]. unfold ne0 at 1.
    rewrite (nth_indep _ false (is_nonzero 0%Z))
      by (rewrite length_map; unfold len in Hk; lia).
    rewrite map_nth.
    destruct (is_nonzero (nth (Z.to_nat k) r 0%Z)); [|reflexivity].
    rewrite precision_at_k_ne0, precision_at_k_some by lia.
    reflexivity.
Qed.

Lemma relevant_ranks_bounds (r : list Z) (i : Z) :
  In i (relevant_ranks r) -> (1 <= i <= len r)%Z.
Proof.
  unfold relevant_ranks. rewrite filter_In, in_map_iff.
  intros [[n [<- Hn]] _]. apply in_seq in Hn. unfold len. lia.
Qed.

Lemma nth_all_zero (r : list Z) (n : nat) :
  Forall (fun x => x = 0%Z) r -> nth n r 0%Z = 0%Z.
Proof.
  intros Hr. destruct (nth_in_or_default n r 0%Z) as [Hin|Hd]; [|exact Hd].
  rewrite Forall_forall in Hr. now apply Hr.
Qed.

Lemma filter_none {A : Type} (f : A -> bool) (l : list A) :
  (forall x, In x l -> f x = false) -> filter f l = [].
Proof.
  induction l as [|x l IH]; intros Hf; simpl; [reflexivity|].
  rewrite (Hf x) by now left. apply IH. intros y Hy. apply Hf. now right.
Qed.

Lemma relevant_ranks_all_zero (r : list Z) :
  Forall (fun x => x = 0%Z) r -> relevant_ranks r = [].
Proof.
  intros Hr. unfold relevant_ranks. apply filter_none.
  intros i _. now rewrite nth_all_zero.
Qed.

(** C6.  [average_precision] is the arithmetic mean of
    [precision_at_k(vector, i)] over the 1-based ranks [i] of the relevant
    entries, and 0.0 when there is none. *)
Theorem average_precision_spec (r : list Z) :
  (exists ps : list Q,
     Forall2 (fun i p => precision_at_k r (Some i) = Ok (Fin p))
             (relevant_ranks r) ps /\
     exists q : Q,
       average_precision r = Ok (Fin q) /\
       q == match ps with [] => 0 | _ => Qmean ps end) /\
  (Forall (fun x => x = 0%Z) r -> average_precision r = Ok (Fin 0)) /\
  average_precision [0; 0; 0]%Z = Ok (Fin 0) /\
  (exists q : Q, average_precision [1; 0; 1]%Z = Ok (Fin q) /\ q == 5 # 6).
Proof.
  split; [|split; [|split]].
  - exists (map (fun i => frac (count_relevant (first_k r (Some i))) i)
                (relevant_ranks r)).
    split.
    + pose proof (relevant_ranks_bounds r) as Hb.
      induction (relevant_ranks r) as [|i l IH]; simpl; constructor.
      * apply precision_at_k_some. apply Hb. now left.
      * apply IH. intros j Hj. apply Hb. now right.
    + rewrite average_precision_unfold, <- (map_map _ Fin).
      destruct (map _ (relevant_ranks r)) as [|p ps] eqn:E.
      * exists 0. split; reflexivity.
      * destruct (np_fmean_Fin (p :: ps)) as [q [Hq Hm]]; [discriminate|].
        exists q. split; [|exact Hm]. now rewrite <- Hq.
  - intros Hr. rewrite average_precision_unfold.
    now rewrite relevant_ranks_all_zero.
  - reflexivity.
  - eexists. split; [vm_compute; reflexivity|reflexivity].
Qed.

Lemma average_precision_spec_witness :
  average_precision [0; 0]%Z = Ok (Fin 0).
Proof.
  apply (proj1 (proj2 (average_precision_spec [0; 0]%Z))).
  repeat constructor.
Defined.

(* ================================================================== *)
(** * Positions of the relevant entries *)
(* ================================================================== *)

Section Nonzero.

Context {A : Type} `{DA : Dtype A}.

Lemma nonzero_from_app (i : Z) (a b : list A) :
  nonzero_from i (a ++ b) = nonzero_from i a ++ nonzero_from (i + len a)%Z b.
Proof.
  revert i. induction a as [|x a IH]; intros i; simpl.
  - unfold len. simpl. now rewrite Z.add_0_r.
  - rewrite IH, len_cons.
    replace (i + 1 + len a)%Z with (i + (len a + 1))%Z by lia.
    now destruct (is_nonzero x).
Qed.

Lemma nonzero_from_none (i : Z) (r : list A) :
  Forall (fun x => is_nonzero x = false) r -> nonzero_from i r = [].
Proof.
  intros Hr. revert i. induction Hr as [|x r Hx _ IH]; intros i; simpl.
  - reflexivity.
  - rewrite Hx. apply IH.
Qed.

Lemma nonzero_from_nil (i : Z) (r : list A) :
  nonzero_from i r = [] -> Forall (fun x => is_nonzero x = false) r.
Proof.
  revert i. induction r as [|x r IH]; intros i; simpl.
  - constructor.
  - destruct (is_nonzero x) eqn:Hx; [discriminate|].
    intros E. constructor; [exact Hx|]. now apply (IH (i + 1)%Z).
Qed.

(** The head of [nonzero_from i r] is the position of the first nonzero
    entry. *)
Lemma nonzero_from_head (d : A) (i j : Z) (l : list Z) (r : list A) :
  nonzero_from i r = j :: l ->
  exists n : nat,
    j = (i + Z.of_nat n)%Z /\ (n < length r)%nat /\
    is_nonzero (nth n r d) = true /\
    (forall m : nat, (m < n)%nat -> is_nonzero (nth m r d) = false).
Proof.
  revert i. induction r as [|x r IH]; intros i; simpl; [discriminate|].
  destruct (is_nonzero x) eqn:Hx.
  - intros E. injection E as <- _. exists 0%nat.
    repeat split; [lia|lia|exact Hx|]. intros m Hm. lia.
  - intros E. destruct (IH _ E) as [n [Hj [Hn [Hnz Hbefore]]]].
    exists (S n). repeat split; [lia|lia|exact Hnz|].
    intros [|m] Hm; [exact Hx|]. apply Hbefore. lia.
Qed.

End Nonzero.

Lemma is_nonzero_Z (x : Z) : is_nonzero x = false <-> x = 0%Z.
Proof.
  simpl. destruct (Z.eqb_spec x 0); simpl; split; intros; congruence.
Qed.

Lemma all_zero_ne0 (r : list Z) :
  Forall (fun x => x = 0%Z) r ->
  Forall (fun b : bool => is_nonzero b = false) (ne0 r).
Proof.
  intros Hr. unfold ne0. apply Forall_map.
  rewrite Forall_forall in *. intros x Hx. now rewrite (Hr x Hx).
Qed.

(** Splitting a vector at its last relevant entry. *)
Lemma split_last_relevant (r : list Z) (z : nat) :
  (z < length r)%nat ->
  (forall j : nat, (z < j)%nat -> nth j r 0%Z = 0%Z) ->
  exists a b : list Z,
    r = a ++ nth z r 0%Z :: b /\ length a = z /\
    Forall (fun x => x = 0%Z) b.
Proof.
  intros Hz Hafter.
  destruct (nth_split r 0%Z Hz) as [a [b [Hr Ha]]].
  exists a, b. repeat split; [exact Hr|exact Ha|].
  apply Forall_forall. intros y Hy.
  destruct (In_nth b y 0%Z Hy) as [n [Hn <-]].
  specialize (Hafter (S z + n)%nat ltac:(lia)).
  rewrite Hr in Hafter at 1.
  rewrite app_nth2 in Hafter by lia.
  replace (S z + n - length a)%nat with (S n) in Hafter by lia.
  exact Hafter.
Qed.

(* ================================================================== *)
(** * [r_precision] *)
(* ================================================================== *)

Lemma r_precision_no_relevant (r : list Z) :
  Forall (fun x => x = 0%Z) r -> r_precision r = Ok (Fin 0).
Proof.
  intros Hr. unfold r_precision, nonzero.
  now rewrite (nonzero_from_none 0 (ne0 r) (all_zero_ne0 r Hr)).
Qed.

Lemma r_precision_last_relevant (r : list Z) (z : nat) :
  (z < length r)%nat -> nth z r 0%Z <> 0%Z ->
  (forall j : nat, (z < j)%nat -> nth j r 0%Z = 0%Z) ->
  r_precision r =
  Ok (Fin (frac (count_relevant (firstn (S z) r)) (Z.of_nat z + 1))).
Proof.
  intros Hz Hnz Hafter.
  destruct (split_last_relevant r z Hz Hafter) as [a [b [Hr [Ha Hb]]]].
  assert (Hnon : nonzero (ne0 r) = nonzero (ne0 a) ++ [Z.of_nat z]).
  { rewrite Hr at 1. unfold nonzero.
    rewrite ne0_app, ne0_cons, nonzero_from_app. f_equal.
    cbn [nonzero_from].
    assert (Hx : is_nonzero (is_nonzero (nth z r 0%Z)) = true).
    { simpl. destruct (Z.eqb_spec (nth z r 0%Z) 0); [contradiction|easy]. }
    rewrite Hx.
    rewrite (nonzero_from_none _ (ne0 b) (all_zero_ne0 b Hb)).
    rewrite len_ne0. unfold len. rewrite Ha. reflexivity. }
  unfold r_precision. rewrite Hnon.
  assert (Hlen : len (nonzero (ne0 a) ++ [Z.of_nat z]) <> 0%Z).
  { unfold len. rewrite length_app. simpl. lia. }
  destruct (Z.eqb_spec (len (nonzero (ne0 a) ++ [Z.of_nat z])) 0);
    [contradiction|].
  unfold last_item. rewrite rev_app_distr. simpl rev. cbn [app bind].
  unfold ne0 at 1. rewrite slice_to_map. fold (ne0 (slice_to r (Some (Z.of_nat z + 1)%Z))).
  rewrite slice_to_valid by (simpl; lia). simpl first_k.
  replace (Z.to_nat (Z.of_nat z + 1)) with (S z) by lia.
  rewrite np_mean_ne0.
  - rewrite len_firstn. do 3 f_equal. unfold len. lia.
  - destruct r; simpl in *; [lia|discriminate].
Qed.

(** C8.  [r_precision] is 0.0 when no entry is nonzero; otherwise, with
    [z] the 0-based position of the last relevant entry, it is the number
    of relevant entries among positions [0..z] divided by [z + 1]. *)
Theorem r_precision_spec (r : list Z) :
  (Forall (fun x => x = 0%Z) r -> r_precision r = Ok (Fin 0)) /\
  (forall z : nat,
     (z < length r)%nat -> nth z r 0%Z <> 0%Z ->
     (forall j : nat, (z < j)%nat -> nth j r 0%Z = 0%Z) ->
     r_precision r =
       Ok (Fin (frac (count_relevant (firstn (S z) r)) (Z.of_nat z + 1))) /\
     0 <= frac (count_relevant (firstn (S z) r)) (Z.of_nat z + 1) <= 1) /\
  (exists q : Q, r_precision [0; 1; 0; 1; 0]%Z = Ok (Fin q) /\ q == 1 # 2).
Proof.
  split; [apply r_precision_no_relevant|]. split.
  - intros z Hz Hnz Hafter. split; [now apply r_precision_last_relevant|].
    apply frac_bounds; [|lia].
    pose proof (count_relevant_bounds (firstn (S z) r)) as Hc.
    rewrite len_firstn in Hc. lia.
  - eexists. split; [vm_compute; reflexivity|reflexivity].
Qed.

Lemma r_precision_spec_witness :
  r_precision [0; 0]%Z = Ok (Fin 0) /\
  r_precision [1; 0; 2; 0]%Z =
    Ok (Fin (frac (count_relevant (firstn 3 [1; 0; 2; 0]%Z)) (Z.of_nat 2 + 1))).
Proof.
  split.
  - apply (proj1 (r_precision_spec [0; 0]%Z)). repeat constructor.
  - apply (proj1 (proj2 (r_precision_spec [1; 0; 2; 0]%Z)) 2%nat).
    + simpl. lia.
    + simpl. discriminate.
    + intros j Hj.
      do 5 (destruct j as [|j]; [try lia; try reflexivity|]); reflexivity.
Defined.

(* ================================================================== *)
(** * [mean_reciprocal_rank] *)
(* ================================================================== *)

Lemma rr_term_spec (r : list Z) : reciprocal_rank r (rr_term r).
Proof.
  unfold rr_term, nonzero.
  destruct (nonzero_from 0 r) as [|i l] eqn:E.
  - left. split; [|reflexivity].
    apply nonzero_from_nil in E.
    eapply Forall_impl; [|exact E]. intros x. apply is_nonzero_Z.
  - right. destruct (nonzero_from_head 0%Z _ _ _ _ E) as [n [Hi [Hn [Hnz Hb]]]].
    exists n. repeat split.
    + exact Hn.
    + intros E0. apply is_nonzero_Z in E0. congruence.
    + intros j Hj. apply is_nonzero_Z. now apply Hb.
    + now rewrite Hi.
Qed.

Lemma mean_reciprocal_rank_unfold (rs : list (list Z)) :
  mean_reciprocal_rank rs = Ok (np_fmean (map Fin (map rr_term rs))).
Proof.
  unfold mean_reciprocal_rank. do 2 f_equal.
  rewrite !map_map. apply map_ext. intros r.
  unfold rr_term, nonzero.
  destruct (nonzero_from 0 r) as [|i l] eqn:E; [reflexivity|].
  destruct (nonzero_from_head 0%Z _ _ _ _ E) as [n [Hi _]].
  unfold true_divide, frac.
  destruct (Z.eqb_spec (i + 1) 0); [lia|reflexivity].
Qed.

(** C9.  For a non-empty collection, [mean_reciprocal_rank] is the
    arithmetic mean of the vectors' contributions: 1 over the 1-based rank
    of the first relevant entry, or 0 for a vector without one. *)
Theorem mean_reciprocal_rank_spec :
  (forall rs : list (list Z),
     rs <> [] ->
     exists qs : list Q,
       Forall2 reciprocal_rank rs qs /\
       exists q : Q,
         mean_reciprocal_rank rs = Ok (Fin q) /\ q == Qmean qs) /\
  (exists q : Q,
     mean_reciprocal_rank [[0; 0; 1]; [1; 0; 0]]%Z = Ok (Fin q) /\
     q == 2 # 3).
Proof.
  split.
  - intros rs Hrs. exists (map rr_term rs). split.
    + clear Hrs. induction rs as [|r rs IH]; simpl; constructor.
      * apply rr_term_spec.
      * exact IH.
    + rewrite mean_reciprocal_rank_unfold.
      destruct (np_fmean_Fin (map rr_term rs)) as [q [Hq Hm]].
      * intros E. apply map_eq_nil in E. contradiction.
      * exists q. split; [now rewrite Hq|exact Hm].
  - eexists. split; [vm_compute; reflexivity|reflexivity].
Qed.

Lemma mean_reciprocal_rank_spec_witness :
  exists qs : list Q,
    Forall2 reciprocal_rank [[0; 1]; [0; 0]]%Z qs /\
    exists q : Q,
      mean_reciprocal_rank [[0; 1]; [0; 0]]%Z = Ok (Fin q) /\ q == Qmean qs.
Proof.
  apply (proj1 mean_reciprocal_rank_spec [[0; 1]; [0; 0]]%Z). discriminate.
Defined.

(* ================================================================== *)
(** * [hit_rate_at_k] *)
(* ================================================================== *)

Section HitRate.

Variable k : Z.

Lemma hits_fold (rs : list (list Z)) (a : Z) :
  fold_left (fun hits r => if hit k r then (hits + 1)%Z else hits) rs a =
  (a + len (filter (hit k) rs))%Z.
Proof.
  revert a. induction rs as [|r rs IH]; intros a; simpl.
  - unfold len. simpl. lia.
  - rewrite IH. destruct (hit k r); [rewrite len_cons|]; lia.
Qed.

Lemma hit_rate_at_k_unfold (r0 : list Z) (rs : list (list Z)) :
  hit_rate_at_k (r0 :: rs) k =
  if ((k <? 1) || (k >? len r0))%Z then Raise ValueError
  else Ok (Fin (frac (len (filter (hit k) (r0 :: rs))) (len (r0 :: rs)))).
Proof.
  unfold hit_rate_at_k. cbn [first_item bind].
  destruct (k <? 1)%Z; cbn [bind orb]; [reflexivity|].
  destruct (k >? len r0)%Z; [reflexivity|].
  fold (hit k). rewrite hits_fold, Z.add_0_l. unfold py_truediv.
  pose proof (len_pos (r0 :: rs) ltac:(discriminate)).
  destruct (Z.eqb_spec (len (r0 :: rs)) 0); [lia|reflexivity].
Qed.

(** [hit_rate_at_k] raises exactly when [k] is outside
    [1 .. len(rs[0])]; only the first vector is inspected. *)
Lemma hit_rate_at_k_raises (r0 : list Z) (rs : list (list Z)) :
  hit_rate_at_k (r0 :: rs) k = Raise ValueError <->
  (k < 1 \/ len r0 < k)%Z.
Proof.
  rewrite hit_rate_at_k_unfold.
  destruct (Z.ltb_spec k 1), (Z.gtb_spec k (len r0)); simpl;
    split; intros; try reflexivity; try discriminate; lia.
Qed.

Lemma int64_wrap_small (z : Z) :
  (0 <= z <= int64_max)%Z -> int64_wrap z = z.
Proof.
  unfold int64_wrap, int64_max. intros Hz.
  rewrite Z.mod_small by lia. lia.
Qed.

(** Without negative entries and without overflow, the [int64] sum is
    the exact sum, and it is positive exactly when an entry is nonzero. *)
Lemma np_sum_int64_acc (l : list Z) (a : Z) :
  Forall (fun x => 0 <= x)%Z l -> (0 <= a)%Z ->
  (a + Zsum l <= int64_max)%Z ->
  fold_left (fun acc x => int64_wrap (acc + x)) l a = (a + Zsum l)%Z.
Proof.
  intros Hl. revert a. induction Hl as [|x l Hx Hl IH]; intros a Ha Hs.
  - simpl. lia.
  - cbn [fold_left Zsum fold_right] in *. fold (Zsum l) in *.
    assert (Hz : (0 <= Zsum l)%Z).
    { clear -Hl. induction Hl as [|y l Hy _ IH]; simpl; lia. }
    rewrite int64_wrap_small by lia.
    rewrite IH by lia. lia.
Qed.

Lemma Zsum_nonneg (l : list Z) :
  Forall (fun x => 0 <= x)%Z l ->
  (0 <= Zsum l)%Z /\ (Zsum l >? 0)%Z = has_relevant l.
Proof.
  induction 1 as [|x l Hx _ [IH0 IH]]; [split; [simpl; lia|reflexivity]|].
  cbv beta in Hx. cbn [Zsum fold_right has_relevant existsb].
  fold (Zsum l). fold (has_relevant l). rewrite <- IH. split; [lia|].
  destruct (Z.eqb_spec x 0), (Z.gtb_spec (Zsum l) 0),
    (Z.gtb_spec (x + Zsum l) 0); simpl; try reflexivity; lia.
Qed.

Lemma np_sum_int64_nonneg (l : list Z) :
  Forall (fun x => 0 <= x)%Z l -> (Zsum l <= int64_max)%Z ->
  (np_sum_int64 l >? 0)%Z = has_relevant l.
Proof.
  intros Hl Hs. unfold np_sum_int64.
  rewrite np_sum_int64_acc by (try assumption; lia).
  rewrite Z.add_0_l. now apply Zsum_nonneg.
Qed.

(** On vectors without negative entries whose windows do not overflow
    [int64], the loop counts the vectors with a relevant entry in the
    first [k] positions. *)
Lemma hit_rate_at_k_nonneg (r0 : list Z) (rs : list (list Z)) :
  Forall (Forall (fun x => 0 <= x)%Z) (r0 :: rs) ->
  Forall (window_fits k) (r0 :: rs) ->
  (1 <= k <= len r0)%Z ->
  hit_rate_at_k (r0 :: rs) k = Ok (Fin (hit_fraction (r0 :: rs) k)) /\
  0 <= hit_fraction (r0 :: rs) k <= 1.
Proof.
  intros Hnn Hfit Hk. rewrite hit_rate_at_k_unfold.
  destruct (Z.ltb_spec k 1); [lia|].
  destruct (Z.gtb_spec k (len r0)); [lia|]. cbn [orb].
  unfold hit_fraction. split.
  - do 4 f_equal. apply filter_ext_in. intros r Hr. unfold hit.
    rewrite slice_to_valid by (simpl; lia).
    rewrite Forall_forall in Hnn, Hfit.
    apply np_sum_int64_nonneg.
    + simpl. apply Forall_first_n. now apply Hnn.
    + now apply Hfit.
  - apply frac_bounds.
    + split; [apply len_nonneg|].
      unfold len. apply inj_le. apply filter_length_le.
    + pose proof (len_pos (r0 :: rs) ltac:(discriminate)). lia.
Qed.

End HitRate.

(** One of the two vectors has a relevant entry in its first two
    positions. *)
Lemma hit_rate_at_k_example :
  exists q : Q,
    hit_rate_at_k [[0; 1; 0]; [0; 0; 0]]%Z 2 = Ok (Fin q) /\ q == 1 # 2.
Proof. eexists. split; [vm_compute; reflexivity|reflexivity]. Qed.

(** The [int64] sum wraps: two entries [2**62] add up to [-2**63], so the
    vector is not counted as a hit at [k = 2], while it is at [k = 1]. *)
Lemma hit_rate_at_k_int64_wrap :
  (exists q : Q,
     hit_rate_at_k [[2 ^ 62; 2 ^ 62]]%Z 1 = Ok (Fin q) /\ q == 1) /\
  (exists q : Q,
     hit_rate_at_k [[2 ^ 62; 2 ^ 62]]%Z 2 = Ok (Fin q) /\ q == 0).
Proof.
  split; eexists; (split; [vm_compute; reflexivity|reflexivity]).
Qed.

(** C4.  On the collection [[[1, -1]]] with [k = 2] the cutoff is valid
    and the only vector has a relevant entry in its first two positions,
    so the hit rate of the claim is 1; the code sums the window
    ([1 + -1 = 0]), finds no hit, and returns 0.0. *)
Theorem hit_rate_at_k_negative_entry :
  (1 <= 2 <= len [1; -1])%Z /\
  hit_fraction [[1; -1]]%Z 2 == 1 /\
  exists q : Q, hit_rate_at_k [[1; -1]]%Z 2 = Ok (Fin q) /\ q == 0.
Proof.
  split; [vm_compute; split; discriminate|].
  split; [reflexivity|].
  eexists. split; [vm_compute; reflexivity|reflexivity].
Qed.

(* ================================================================== *)
(** * Further properties of the binary-relevance metrics *)
(* ================================================================== *)

(** ** Validation of the cutoff *)

Lemma nil_or_not {A : Type} (l : list A) : l = [] \/ l <> [].
Proof. destruct l; [now left|right; discriminate]. Qed.

(** A cutoff below 1 fails the [assert] of [precision_at_k],
    [recall_at_k] and [f1_score_at_k] before anything is computed,
    whatever the vector and [max_rel]. *)
Theorem cutoff_below_one_asserts (r : list Z) (max_rel k : Z) :
  (k < 1)%Z ->
  precision_at_k r (Some k) = Raise AssertionError /\
  recall_at_k r max_rel (Some k) = Raise AssertionError /\
  f1_score_at_k r max_rel (Some k) = Raise AssertionError.
Proof.
  intros Hk.
  assert (Ha : py_assert (k >=? 1)%Z = Raise AssertionError).
  { unfold py_assert. destruct (Z.geb_spec k 1); [lia|reflexivity]. }
  assert (Hp : precision_at_k r (Some k) = Raise AssertionError).
  { unfold precision_at_k. now rewrite Ha. }
  split; [exact Hp|]. split.
  - unfold recall_at_k. now rewrite Ha.
  - unfold f1_score_at_k. now rewrite Hp.
Qed.

Lemma cutoff_below_one_asserts_witness :
  precision_at_k [1; 0]%Z (Some 0%Z) = Raise AssertionError /\
  recall_at_k [1; 0]%Z 2 (Some 0%Z) = Raise AssertionError /\
  f1_score_at_k [1; 0]%Z 2 (Some 0%Z) = Raise AssertionError.
Proof. apply (cutoff_below_one_asserts [1; 0]%Z 2 0). lia. Defined.

(** Unlike [precision_at_k], [recall_at_k] accepts a cutoff beyond the
    end of the vector: the result is that of the call without cutoff. *)
Theorem recall_at_k_cutoff_beyond (r : list Z) (max_rel k : Z) :
  (1 <= k)%Z -> (len r <= k)%Z ->
  recall_at_k r max_rel (Some k) = recall_at_k r max_rel None.
Proof.
  intros Hk Hlen.
  rewrite (recall_at_k_unfold r max_rel (Some k)) by exact Hk.
  rewrite (recall_at_k_unfold r max_rel None) by exact I.
  simpl first_k. rewrite firstn_all2; [reflexivity|].
  unfold len in Hlen. lia.
Qed.

Lemma recall_at_k_cutoff_beyond_witness :
  recall_at_k [1; 0; 1]%Z 4 (Some 7%Z) = recall_at_k [1; 0; 1]%Z 4 None.
Proof.
  apply (recall_at_k_cutoff_beyond [1; 0; 1]%Z 4 7); [lia|].
  vm_compute. discriminate.
Defined.

(** ** [hit_rate_at_k] *)

(** On an empty collection the test [k < 1] comes first: it raises
    [ValueError]; otherwise [rs[0]] raises [IndexError]. *)
Lemma hit_rate_at_k_empty (k : Z) :
  hit_rate_at_k [] k =
  Raise (if (k <? 1)%Z then ValueError else IndexError).
Proof. unfold hit_rate_at_k. now destruct (k <? 1)%Z. Qed.

(** On a non-empty collection without negative entries, and whose
    windows of [k] entries have sums that fit [int64], [hit_rate_at_k]
    raises [ValueError] exactly when [k < 1] or [k] exceeds the length of
    the first vector, and otherwise returns the fraction of the vectors
    with a relevant entry among their first [k] positions, a value in
    [0, 1].  The lengths of the other vectors are not checked: a shorter
    vector contributes whatever it has. *)
Theorem hit_rate_at_k_nonneg_spec (r0 : list Z) (rs : list (list Z)) (k : Z) :
  Forall (Forall (fun x => 0 <= x)%Z) (r0 :: rs) ->
  Forall (window_fits k) (r0 :: rs) ->
  (hit_rate_at_k (r0 :: rs) k = Raise ValueError <->
     (k < 1 \/ len r0 < k)%Z) /\
  ((1 <= k <= len r0)%Z ->
     hit_rate_at_k (r0 :: rs) k = Ok (Fin (hit_fraction (r0 :: rs) k)) /\
     unit_interval (hit_fraction (r0 :: rs) k)).
Proof.
  intros Hnn Hfit. split.
  - apply hit_rate_at_k_raises.
  - intros Hk. now apply hit_rate_at_k_nonneg.
Qed.

Lemma hit_rate_at_k_nonneg_spec_witness :
  (hit_rate_at_k [[1; 0]; [0; 0; 0; 1]]%Z 3 = Raise ValueError <->
     (3 < 1 \/ len [1; 0]%Z < 3)%Z) /\
  (hit_rate_at_k [[0; 1; 0]; [0]]%Z 2 =
     Ok (Fin (hit_fraction [[0; 1; 0]; [0]]%Z 2)) /\
   unit_interval (hit_fraction [[0; 1; 0]; [0]]%Z 2)).
Proof.
  split.
  - apply (hit_rate_at_k_nonneg_spec [1; 0]%Z [[0; 0; 0; 1]]%Z 3).
    + repeat constructor; lia.
    + repeat constructor; vm_compute; discriminate.
  - apply (hit_rate_at_k_nonneg_spec [0; 1; 0]%Z [[0]]%Z 2).
    + repeat constructor; lia.
    + repeat constructor; vm_compute; discriminate.
    + vm_compute. split; discriminate.
Defined.

Lemma Zsum_firstn_mono (r : list Z) (n m : nat) :
  Forall (fun x => 0 <= x)%Z r -> (n <= m)%nat ->
  (Zsum (firstn n r) <= Zsum (firstn m r))%Z.
Proof.
  intros Hr. revert n m.
  induction Hr as [|x r Hx Hr IH]; intros n m Hnm.
  - rewrite !firstn_nil. lia.
  - destruct n as [|n].
    + destruct (Zsum_nonneg (firstn m (x :: r))) as [H0 _];
        [apply Forall_first_n; now constructor|].
      change (Zsum (firstn 0 (x :: r))) with 0%Z. exact H0.
    + destruct m as [|m]; [lia|].
      cbn [firstn Zsum fold_right]. fold (Zsum (firstn n r)).
      fold (Zsum (firstn m r)). specialize (IH n m ltac:(lia)). lia.
Qed.

Lemma In_firstn_mono {A : Type} (x : A) (r : list A) (n m : nat) :
  (n <= m)%nat -> In x (firstn n r) -> In x (firstn m r).
Proof.
  revert n m. induction r as [|y r IH]; intros [|n] [|m] Hnm; simpl;
    try tauto; try lia.
  intros [E | Hin]; [now left|]. right. apply (IH n m); [lia|exact Hin].
Qed.

Lemma has_relevant_firstn_mono (r : list Z) (n m : nat) :
  (n <= m)%nat ->
  has_relevant (firstn n r) = true -> has_relevant (firstn m r) = true.
Proof.
  intros Hnm. unfold has_relevant. rewrite !existsb_exists.
  intros [x [Hin Hx]]. exists x. split; [|exact Hx].
  now apply (In_firstn_mono x r n m).
Qed.

Lemma filter_length_mono {A : Type} (f g : A -> bool) (l : list A) :
  (forall x, f x = true -> g x = true) ->
  (length (filter f l) <= length (filter g l))%nat.
Proof.
  intros Hfg. induction l as [|x l IH]; simpl; [lia|].
  destruct (f x) eqn:Hf.
  - rewrite (Hfg x Hf). simpl. lia.
  - destruct (g x); simpl; lia.
Qed.

Lemma frac_le_mono (a b n : Z) :
  (a <= b)%Z -> (0 < n)%Z -> frac a n <= frac b n.
Proof.
  intros Hab Hn. unfold frac.
  assert (Hq : 0 < inject_Z n) by (now rewrite (Zlt_Qlt 0 n) in Hn).
  unfold Qdiv. apply Qmult_le_r; [now apply Qinv_lt_0_compat|].
  now rewrite (Zle_Qle a b) in Hab.
Qed.

(** On vectors without negative entries, and whose windows of [k']
    entries have sums that fit [int64], the hit rate does not decrease
    when the cutoff grows from [k] to [k']. *)
Theorem hit_rate_at_k_monotone (rs : list (list Z)) (k k' : Z) (q q' : Q) :
  Forall (Forall (fun x => 0 <= x)%Z) rs ->
  Forall (window_fits k') rs ->
  (k <= k')%Z ->
  hit_rate_at_k rs k = Ok (Fin q) ->
  hit_rate_at_k rs k' = Ok (Fin q') ->
  q <= q'.
Proof.
  intros Hnn Hfit' Hkk Hq Hq'.
  destruct rs as [|r0 rs];
    [rewrite hit_rate_at_k_empty in Hq; discriminate|].
  assert (Hk : (1 <= k <= len r0)%Z).
  { destruct (Z_lt_dec k 1) as [H|H];
      [|destruct (Z_lt_dec (len r0) k) as [H'|H']; [|lia]].
    - rewrite (proj2 (hit_rate_at_k_raises k r0 rs)) in Hq by lia.
      discriminate.
    - rewrite (proj2 (hit_rate_at_k_raises k r0 rs)) in Hq by lia.
      discriminate. }
  assert (Hk' : (1 <= k' <= len r0)%Z).
  { destruct (Z_lt_dec (len r0) k') as [H|H]; [|lia].
    rewrite (proj2 (hit_rate_at_k_raises k' r0 rs)) in Hq' by lia.
    discriminate. }
  assert (Hfit : Forall (window_fits k) (r0 :: rs)).
  { rewrite Forall_forall in *. intros r Hr.
    specialize (Hfit' r Hr). unfold window_fits in *. simpl first_k in *.
    pose proof (Zsum_firstn_mono r (Z.to_nat k) (Z.to_nat k')
                  (Hnn r Hr) ltac:(lia)). lia. }
  destruct (hit_rate_at_k_nonneg k r0 rs Hnn Hfit Hk) as [E _].
  destruct (hit_rate_at_k_nonneg k' r0 rs Hnn Hfit' Hk') as [E' _].
  rewrite E in Hq. rewrite E' in Hq'.
  injection Hq as <-. injection Hq' as <-.
  unfold hit_fraction. apply frac_le_mono.
  - unfold len. apply inj_le. apply filter_length_mono.
    intros r. simpl. apply has_relevant_firstn_mono. lia.
  - pose proof (len_pos (r0 :: rs) ltac:(discriminate)). lia.
Qed.

Lemma hit_rate_at_k_monotone_witness :
  1 # 2 <= 1.
Proof.
  apply (hit_rate_at_k_monotone [[0; 1; 0]; [0; 0; 1]]%Z 2 3
           (frac 1 2) (frac 2 2)).
  - repeat constructor; lia.
  - repeat constructor; vm_compute; discriminate.
  - lia.
  - vm_compute. reflexivity.
  - vm_compute. reflexivity.
Defined.

(** ** Means of values in the unit interval *)

Lemma inject_Z_pos (n : Z) : (0 < n)%Z -> 0 < inject_Z n.
Proof. intros Hn. now rewrite (Zlt_Qlt 0 n) in Hn. Qed.

Lemma Qsum_unit_interval (l : list Q) :
  Forall unit_interval l -> 0 <= Qsum l <= inject_Z (len l).
Proof.
  induction 1 as [|q l [Hq0 Hq1] _ [IH0 IH1]].
  - simpl. split; apply Qle_refl.
  - rewrite len_cons, inject_Z_plus. simpl Qsum. split.
    + rewrite <- (Qplus_0_r 0). now apply Qplus_le_compat.
    + rewrite (Qplus_comm (inject_Z (len l))). now apply Qplus_le_compat.
Qed.

Lemma Qmean_unit_interval (l : list Q) :
  l <> [] -> Forall unit_interval l -> unit_interval (Qmean l).
Proof.
  intros Hl Hall. destruct (Qsum_unit_interval l Hall) as [H0 H1].
  pose proof (len_pos l Hl) as Hlen.
  assert (Hq : 0 < inject_Z (len l)) by (apply inject_Z_pos; lia).
  unfold Qmean. split.
  - apply Qle_shift_div_l; [exact Hq|]. now rewrite Qmult_0_l.
  - apply Qle_shift_div_r; [exact Hq|]. now rewrite Qmult_1_l.
Qed.

Lemma Qsum_pos (l : list Q) :
  l <> [] -> Forall (fun q => 0 < q) l -> 0 < Qsum l.
Proof.
  intros Hl Hall. destruct Hall as [|q l Hq Hall]; [contradiction|].
  clear Hl. simpl. revert q Hq.
  induction Hall as [|p l Hp _ IH]; intros q Hq; simpl.
  - now rewrite Qplus_0_r.
  - rewrite <- (Qplus_0_r 0). apply Qplus_lt_le_compat; [exact Hq|].
    apply Qlt_le_weak. now apply IH.
Qed.

Lemma Qmean_pos (l : list Q) :
  l <> [] -> Forall (fun q => 0 < q) l -> 0 < Qmean l.
Proof.
  intros Hl Hall. pose proof (len_pos l Hl) as Hlen.
  assert (Hq : 0 < inject_Z (len l)) by (apply inject_Z_pos; lia).
  unfold Qmean. apply Qlt_shift_div_l; [exact Hq|].
  rewrite Qmult_0_l. now apply Qsum_pos.
Qed.

Lemma frac_pos (c n : Z) : (0 < c)%Z -> (0 < n)%Z -> 0 < frac c n.
Proof.
  intros Hc Hn. unfold frac.
  apply Qlt_shift_div_l; [now apply inject_Z_pos|].
  rewrite Qmult_0_l. now apply inject_Z_pos.
Qed.

(** ** [average_precision] and [mean_average_precision] *)

Lemma count_relevant_at_rank (r : list Z) (i : nat) :
  (i < length r)%nat -> nth i r 0%Z <> 0%Z ->
  (1 <= count_relevant (firstn (S i) r))%Z.
Proof.
  intros Hi Hnz. unfold count_relevant.
  assert (Hin : In (nth i r 0%Z)
                   (filter (fun x => negb (x =? 0)%Z) (firstn (S i) r))).
  { apply filter_In. split.
    - rewrite <- (firstn_skipn (S i) r) at 1.
      rewrite app_nth1 by (rewrite length_firstn; lia).
      apply nth_In. rewrite length_firstn. lia.
    - destruct (Z.eqb_spec (nth i r 0%Z) 0); [contradiction|reflexivity]. }
  destruct (filter _ (firstn (S i) r)); [contradiction|]. simpl length. lia.
Qed.

Lemma relevant_ranks_nonzero (r : list Z) (i : Z) :
  In i (relevant_ranks r) -> nth (Z.to_nat (i - 1)) r 0%Z <> 0%Z.
Proof.
  unfold relevant_ranks. rewrite filter_In. intros [_ Hnz] E.
  rewrite E in Hnz. discriminate.
Qed.

Lemma relevant_ranks_nil (r : list Z) :
  relevant_ranks r = [] -> Forall (fun x => x = 0%Z) r.
Proof.
  intros E. apply Forall_forall. intros x Hx.
  destruct (In_nth r x 0%Z Hx) as [n [Hn <-]].
  destruct (Z.eqb_spec (nth n r 0%Z) 0) as [E0|Hne]; [exact E0|].
  exfalso.
  assert (Hin : In (Z.of_nat (S n)) (relevant_ranks r)).
  { unfold relevant_ranks. apply filter_In. split.
    - apply in_map, in_seq. lia.
    - replace (Z.to_nat (Z.of_nat (S n) - 1)) with n by lia.
      destruct (Z.eqb_spec (nth n r 0%Z) 0); [contradiction|reflexivity]. }
  rewrite E in Hin. contradiction.
Qed.

(** The precision at a relevant rank is positive and at most 1. *)
Lemma precision_at_relevant_rank (r : list Z) (i : Z) :
  In i (relevant_ranks r) ->
  0 < frac (count_relevant (first_k r (Some i))) i /\
  unit_interval (frac (count_relevant (first_k r (Some i))) i).
Proof.
  intros Hin. pose proof (relevant_ranks_bounds r i Hin) as Hb.
  pose proof (relevant_ranks_nonzero r i Hin) as Hnz.
  pose proof (count_relevant_bounds (first_k r (Some i))) as Hc.
  simpl first_k in *. rewrite len_firstn in Hc.
  assert (H1 : (1 <= count_relevant (firstn (Z.to_nat i) r))%Z).
  { replace (Z.to_nat i) with (S (Z.to_nat (i - 1))) by lia.
    apply count_relevant_at_rank; [unfold len in Hb; lia|exact Hnz]. }
  split; [apply frac_pos; lia|apply frac_bounds; lia].
Qed.

Lemma average_precision_value (r : list Z) :
  exists q : Q,
    average_precision r = Ok (Fin q) /\ unit_interval q /\
    (relevant_ranks r = [] -> q == 0) /\
    (relevant_ranks r <> [] -> 0 < q).
Proof.
  rewrite average_precision_unfold, <- (map_map _ Fin).
  pose proof (precision_at_relevant_rank r) as Hp.
  destruct (relevant_ranks r) as [|i l] eqn:E.
  - exists 0. split; [reflexivity|]. split; [split; discriminate|].
    split; [reflexivity|intros H; contradiction].
  - set (ps := map (fun i => frac (count_relevant (first_k r (Some i))) i)
                   (i :: l)).
    assert (Hne : ps <> []) by discriminate.
    assert (Hpos : Forall (fun q => 0 < q) ps).
    { apply Forall_map, Forall_forall. intros j Hj. now apply Hp. }
    assert (Hunit : Forall unit_interval ps).
    { apply Forall_map, Forall_forall. intros j Hj. now apply Hp. }
    destruct (np_fmean_Fin ps Hne) as [q [Hq Hm]].
    exists q. split; [now rewrite <- Hq|]. split; [|split].
    + unfold unit_interval. rewrite Hm. now apply Qmean_unit_interval.
    + discriminate.
    + intros _. rewrite Hm. now apply Qmean_pos.
Qed.

(** [average_precision] never raises: it returns a finite value in
    [0, 1], which is 0 exactly when the vector has no relevant entry. *)
Theorem average_precision_range (r : list Z) :
  exists q : Q,
    average_precision r = Ok (Fin q) /\ unit_interval q /\
    (q == 0 <-> Forall (fun x => x = 0%Z) r).
Proof.
  destruct (average_precision_value r) as [q [Hq [Hu [Hz Hp]]]].
  exists q. split; [exact Hq|]. split; [exact Hu|]. split.
  - intros E. apply relevant_ranks_nil.
    destruct (nil_or_not (relevant_ranks r)) as [Hn|Hn]; [exact Hn|].
    exfalso. specialize (Hp Hn). rewrite E in Hp.
    now apply Qlt_irrefl in Hp.
  - intros Hall. apply Hz. now apply relevant_ranks_all_zero.
Qed.

(** On a non-empty collection [mean_average_precision] never raises and
    returns the arithmetic mean of the vectors' average precisions, a
    value in [0, 1]. *)
Theorem mean_average_precision_spec (rs : list (list Z)) :
  rs <> [] ->
  exists (aps : list Q) (q : Q),
    Forall2 (fun r a => average_precision r = Ok (Fin a)) rs aps /\
    mean_average_precision rs = Ok (Fin q) /\
    q == Qmean aps /\ unit_interval q.
Proof.
  intros Hrs.
  assert (Hall : exists aps : list Q,
             Forall2 (fun r a => average_precision r = Ok (Fin a)) rs aps /\
             Forall unit_interval aps /\
             mapM average_precision rs = Ok (map Fin aps)).
  { clear Hrs. induction rs as [|r rs [aps [HF [HU HM]]]].
    - exists []. repeat split; constructor.
    - destruct (average_precision_value r) as [a [Ha [Hu _]]].
      exists (a :: aps). split; [now constructor|]. split; [now constructor|].
      simpl. rewrite Ha. cbn [bind]. rewrite HM. reflexivity. }
  destruct Hall as [aps [HF [HU HM]]].
  assert (Hne : aps <> []).
  { intros E. subst aps. inversion HF. subst rs. contradiction. }
  destruct (np_fmean_Fin aps Hne) as [q [Hq Hm]].
  exists aps, q. split; [exact HF|]. split.
  - unfold mean_average_precision. rewrite HM. cbn [bind]. now rewrite Hq.
  - split; [exact Hm|]. unfold unit_interval. rewrite Hm.
    now apply Qmean_unit_interval.
Qed.

Lemma mean_average_precision_spec_witness :
  exists (aps : list Q) (q : Q),
    Forall2 (fun r a => average_precision r = Ok (Fin a))
            [[1; 0; 1]; [0; 0]]%Z aps /\
    mean_average_precision [[1; 0; 1]; [0; 0]]%Z = Ok (Fin q) /\
    q == Qmean aps /\ unit_interval q.
Proof.
  apply (mean_average_precision_spec [[1; 0; 1]; [0; 0]]%Z). discriminate.
Defined.

(** ** [mean_reciprocal_rank] and [mean_rank] *)

Lemma nonzero_from_ge {A : Type} `{Dtype A} (i j : Z) (r : list A) :
  In j (nonzero_from i r) -> (i <= j < i + len r)%Z.
Proof.
  revert i. induction r as [|x r IH]; intros i; simpl; [contradiction|].
  rewrite len_cons. pose proof (len_nonneg r).
  destruct (is_nonzero x); simpl.
  - intros [<- | Hin]; [lia|]. specialize (IH _ Hin). lia.
  - intros Hin. specialize (IH _ Hin). lia.
Qed.

Lemma rr_term_unit_interval (r : list Z) : unit_interval (rr_term r).
Proof.
  unfold rr_term, nonzero.
  destruct (nonzero_from 0 r) as [|i l] eqn:E; [split; discriminate|].
  assert (Hi : (0 <= i)%Z).
  { apply (nonzero_from_ge 0 i r). rewrite E. now left. }
  apply frac_bounds; lia.
Qed.

(** On a non-empty collection the mean reciprocal rank lies in [0, 1]. *)
Theorem mean_reciprocal_rank_range (rs : list (list Z)) :
  rs <> [] ->
  exists q : Q, mean_reciprocal_rank rs = Ok (Fin q) /\ unit_interval q.
Proof.
  intros Hrs. rewrite mean_reciprocal_rank_unfold.
  assert (Hne : map rr_term rs <> []).
  { intros E. apply map_eq_nil in E. contradiction. }
  destruct (np_fmean_Fin (map rr_term rs) Hne) as [q [Hq Hm]].
  exists q. split; [now rewrite Hq|].
  unfold unit_interval. rewrite Hm. apply Qmean_unit_interval; [exact Hne|].
  apply Forall_map, Forall_forall. intros r _. apply rr_term_unit_interval.
Qed.

Lemma mean_reciprocal_rank_range_witness :
  exists q : Q,
    mean_reciprocal_rank [[0; 0; 1]; [0; 0]]%Z = Ok (Fin q) /\
    unit_interval q.
Proof.
  apply (mean_reciprocal_rank_range [[0; 0; 1]; [0; 0]]%Z). discriminate.
Defined.

Lemma np_sum_Zsum (l : list Z) : np_sum l = Zsum l.
Proof.
  induction l as [|x l IH]; [reflexivity|].
  rewrite np_sum_cons, IH. reflexivity.
Qed.

Lemma first_rank_nonzero (r : list Z) :
  first_rank r (match nonzero r with [] => 0 | i :: _ => i + 1 end)%Z.
Proof.
  unfold nonzero.
  destruct (nonzero_from 0 r) as [|i l] eqn:E.
  - left. split; [|reflexivity].
    apply nonzero_from_nil in E.
    eapply Forall_impl; [|exact E]. intros x. apply is_nonzero_Z.
  - right. destruct (nonzero_from_head 0%Z _ _ _ _ E) as [n [Hi [Hn [Hnz Hb]]]].
    exists n. repeat split.
    + exact Hn.
    + intros E0. apply is_nonzero_Z in E0. congruence.
    + intros j Hj. apply is_nonzero_Z. now apply Hb.
    + lia.
Qed.

Lemma mean_rank_unfold (rs : list (list Z)) :
  mean_rank rs =
  Ok (np_mean (map (fun r => match nonzero r with
                             | [] => 0
                             | i :: _ => i + 1
                             end)%Z rs)).
Proof.
  unfold mean_rank. erewrite mapM_ok; [reflexivity|].
  intros r _. cbv beta zeta. destruct (nonzero r) as [|i l]; reflexivity.
Qed.

(** On a non-empty collection [mean_rank] never raises and returns the
    sum of the vectors' first relevant ranks (1-based, 0 for a vector
    without relevant entry) divided by the number of vectors. *)
Theorem mean_rank_spec (rs : list (list Z)) :
  rs <> [] ->
  exists ns : list Z,
    Forall2 first_rank rs ns /\
    mean_rank rs = Ok (Fin (frac (Zsum ns) (len rs))).
Proof.
  intros Hrs. rewrite mean_rank_unfold.
  exists (map (fun r => match nonzero r with
                        | [] => 0
                        | i :: _ => i + 1
                        end)%Z rs).
  split.
  - clear Hrs. induction rs as [|r rs IH]; simpl; constructor;
      [apply first_rank_nonzero|exact IH].
  - unfold np_mean. rewrite np_sum_Zsum.
    assert (Hlen : len (map (fun r => match nonzero r with
                                      | [] => 0
                                      | i :: _ => i + 1
                                      end)%Z rs) = len rs)
      by (unfold len; now rewrite length_map).
    rewrite Hlen, true_divide_int; [reflexivity|].
    pose proof (len_pos rs Hrs). lia.
Qed.

Lemma mean_rank_spec_witness :
  exists ns : list Z,
    Forall2 first_rank [[0; 0; 1]; [0; 0]]%Z ns /\
    mean_rank [[0; 0; 1]; [0; 0]]%Z =
      Ok (Fin (frac (Zsum ns) (len [[0; 0; 1]; [0; 0]]%Z))).
Proof. apply (mean_rank_spec [[0; 0; 1]; [0; 0]]%Z). discriminate. Defined.

(** On an empty collection the three means are [np.mean] of an empty
    list, that is [nan] and no exception, while [hit_rate_at_k] raises:
    [ValueError] when [k < 1], which is tested first, and otherwise
    [IndexError] on [rs[0]]. *)
Theorem empty_collection (k : Z) :
  mean_rank [] = Ok NaN /\
  mean_reciprocal_rank [] = Ok NaN /\
  mean_average_precision [] = Ok NaN /\
  hit_rate_at_k [] k =
    Raise (if (k <? 1)%Z then ValueError else IndexError).
Proof.
  split; [reflexivity|]. split; [reflexivity|]. split; [reflexivity|].
  unfold hit_rate_at_k. destruct (k <? 1)%Z; reflexivity.
Qed.

(** ** [r_precision] *)

Lemma last_relevant_exists (r : list Z) :
  ~ Forall (fun x => x = 0%Z) r ->
  exists z : nat,
    (z < length r)%nat /\ nth z r 0%Z <> 0%Z /\
    (forall j : nat, (z < j)%nat -> nth j r 0%Z = 0%Z).
Proof.
  induction r as [|x l IH] using rev_ind; intros Hnz.
  - exfalso. apply Hnz. constructor.
  - destruct (Z.eq_dec x 0) as [-> | Hx].
    + destruct IH as [z [Hz [Hv Hafter]]].
      { intros Hl. apply Hnz. apply Forall_app. split; [exact Hl|].
        now constructor. }
      exists z. rewrite length_app. simpl. split; [lia|]. split.
      * now rewrite app_nth1.
      * intros j Hj. destruct (Nat.lt_ge_cases j (length l)) as [Hlt|Hge].
        -- rewrite app_nth1 by exact Hlt. now apply Hafter.
        -- rewrite app_nth2 by exact Hge.
           destruct (j - length l)%nat as [|[|n]]; reflexivity.
    + exists (length l). rewrite length_app. simpl. split; [lia|]. split.
      * now rewrite nth_middle.
      * intros j Hj. apply nth_overflow. rewrite length_app. simpl. lia.
Qed.

(** [r_precision] never raises: it returns a finite value in [0, 1],
    which is 0 exactly when the vector has no relevant entry. *)
Theorem r_precision_range (r : list Z) :
  exists q : Q,
    r_precision r = Ok (Fin q) /\ unit_interval q /\
    (q == 0 <-> Forall (fun x => x = 0%Z) r).
Proof.
  destruct (Forall_dec (fun x => x = 0%Z) (fun x => Z.eq_dec x 0) r)
    as [Hz|Hnz].
  - exists 0. split; [now apply r_precision_no_relevant|].
    split; [split; discriminate|]. split; [now intros _|reflexivity].
  - destruct (last_relevant_exists r Hnz) as [z [Hz [Hv Hafter]]].
    pose proof (count_relevant_at_rank r z Hz Hv) as H1.
    pose proof (count_relevant_bounds (firstn (S z) r)) as Hc.
    rewrite len_firstn in Hc.
    exists (frac (count_relevant (firstn (S z) r)) (Z.of_nat z + 1)).
    split; [now apply r_precision_last_relevant|]. split.
    + apply frac_bounds; lia.
    + split; [|intros Hall; contradiction].
      intros E. exfalso.
      assert (Hgt : 0 < frac (count_relevant (firstn (S z) r))
                              (Z.of_nat z + 1)) by (apply frac_pos; lia).
      rewrite E in Hgt. now apply Qlt_irrefl in Hgt.
Qed.

(** ** [f1_score_at_k] *)

(** A cutoff that [precision_at_k] accepts for the vector [r]. *)
Lemma precision_at_k_window (r : list Z) (k : option Z) :
  valid_cutoff k ->
  (forall k' : Z, k = Some k' -> (k' <= len r)%Z) ->
  first_k r k <> [] ->
  precision_at_k r k =
  Ok (Fin (frac (count_relevant (first_k r k)) (len (first_k r k)))).
Proof.
  intros Hv Hfit Hne. destruct k as [k|].
  - specialize (Hfit k eq_refl). simpl in Hv.
    rewrite precision_at_k_some by lia.
    simpl first_k. rewrite len_firstn. do 3 f_equal. lia.
  - simpl in *. now apply precision_at_k_none.
Qed.

(** Only the empty vector with the cutoff omitted has an empty window
    that [precision_at_k] accepts. *)
Lemma window_empty (r : list Z) (k : option Z) :
  valid_cutoff k ->
  (forall k' : Z, k = Some k' -> (k' <= len r)%Z) ->
  first_k r k = [] -> k = None /\ r = [].
Proof.
  intros Hv Hfit E. destruct k as [k|]; [|now split].
  specialize (Hfit k eq_refl). simpl in Hv, E.
  assert (Hlen : len (firstn (Z.to_nat k) r) = 0%Z) by now rewrite E.
  rewrite len_firstn in Hlen. lia.
Qed.

Lemma Qnum_zero (q : Q) : q == 0 -> Qnum q = 0%Z.
Proof. unfold Qeq. simpl. lia. Qed.

Lemma Qnum_positive (q : Q) : 0 < q -> exists p : positive, Qnum q = Zpos p.
Proof.
  unfold Qlt. simpl. intros Hq.
  destruct (Qnum q) as [|p|p]; try lia. now exists p.
Qed.

Lemma frac_zero (n : Z) : frac 0 n == 0.
Proof. unfold frac, Qdiv. apply Qmult_0_l. Qed.

(** With a relevant item in the window, [f1_score_at_k] is
    [2 c / (n + max_rel)], where [c] is the number of relevant items in
    the window and [n] the size of the window; the value is positive and
    at most 1. *)
Theorem f1_score_at_k_spec (r : list Z) (max_rel : Z) (k : option Z) :
  valid_cutoff k ->
  (forall k' : Z, k = Some k' -> (k' <= len r)%Z) ->
  (1 <= count_relevant (first_k r k) <= max_rel)%Z ->
  exists q : Q,
    f1_score_at_k r max_rel k = Ok (Fin q) /\
    q == frac (2 * count_relevant (first_k r k))
              (len (first_k r k) + max_rel) /\
    0 < q <= 1.
Proof.
  intros Hv Hfit [Hc1 Hcm].
  set (c := count_relevant (first_k r k)) in *.
  set (n := len (first_k r k)).
  pose proof (count_relevant_bounds (first_k r k)) as [_ Hcn].
  fold c n in Hcn.
  assert (Hne : first_k r k <> []).
  { intros E. unfold n in Hcn. rewrite E in Hcn. unfold len in Hcn.
    simpl in Hcn. lia. }
  assert (Hp : 0 < frac c n) by (apply frac_pos; lia).
  assert (Hr : 0 < frac c max_rel) by (apply frac_pos; lia).
  assert (Hsum : 0 < frac c n + frac c max_rel).
  { rewrite <- (Qplus_0_r 0). apply Qplus_lt_le_compat; [exact Hp|].
    now apply Qlt_le_weak. }
  assert (Hval : 2 * frac c n * frac c max_rel / (frac c n + frac c max_rel)
                 == frac (2 * c) (n + max_rel)).
  { unfold frac. rewrite inject_Z_mult, inject_Z_plus.
    assert (Hn0 : ~ inject_Z n == 0).
    { intros E. pose proof (inject_Z_pos n ltac:(lia)) as H.
      rewrite E in H. now apply Qlt_irrefl in H. }
    assert (Hm0 : ~ inject_Z max_rel == 0).
    { intros E. pose proof (inject_Z_pos max_rel ltac:(lia)) as H.
      rewrite E in H. now apply Qlt_irrefl in H. }
    assert (Hc0 : ~ inject_Z c == 0).
    { intros E. pose proof (inject_Z_pos c ltac:(lia)) as H.
      rewrite E in H. now apply Qlt_irrefl in H. }
    assert (Hnm : ~ inject_Z n + inject_Z max_rel == 0).
    { intros E. pose proof (inject_Z_pos (n + max_rel) ltac:(lia)) as H.
      rewrite inject_Z_plus, E in H. now apply Qlt_irrefl in H. }
    change (inject_Z 2) with 2. field. repeat split; try assumption.
    intros E.
    assert (E' : inject_Z c * (inject_Z max_rel + inject_Z n) == 0).
    { rewrite <- E. ring. }
    apply Qmult_integral in E'. destruct E' as [E'|E']; [contradiction|].
    apply Hnm. rewrite <- E'. ring. }
  exists (2 * frac c n * frac c max_rel / (frac c n + frac c max_rel)).
  split; [|split; [exact Hval|]].
  - unfold f1_score_at_k.
    rewrite precision_at_k_window by assumption. cbn [bind].
    rewrite recall_at_k_unfold by assumption. fold c n.
    destruct (Z.gtb_spec c max_rel); [lia|].
    rewrite true_divide_int by lia. cbn [bind np_mul np_add np_div].
    destruct (Qnum_positive _ Hsum) as [p ->]. reflexivity.
  - rewrite Hval. split.
    + apply frac_pos; lia.
    + apply frac_bounds; lia.
Qed.

Lemma f1_score_at_k_spec_witness :
  exists q : Q,
    f1_score_at_k [1; 0; 1; 0]%Z 3 (Some 3%Z) = Ok (Fin q) /\
    q == frac (2 * count_relevant (first_k [1; 0; 1; 0]%Z (Some 3%Z)))
              (len (first_k [1; 0; 1; 0]%Z (Some 3%Z)) + 3) /\
    0 < q <= 1.
Proof.
  apply (f1_score_at_k_spec [1; 0; 1; 0]%Z 3 (Some 3%Z)).
  - simpl. lia.
  - intros k' E. injection E as <-. vm_compute. discriminate.
  - vm_compute. split; discriminate.
Defined.

(** Without a relevant item in the window, and with [max_rel >= 0] so
    that [recall_at_k] does not raise, [f1_score_at_k] divides zero by
    zero: it returns [nan] and raises nothing. *)
Theorem f1_score_at_k_nan (r : list Z) (max_rel : Z) (k : option Z) :
  valid_cutoff k ->
  (forall k' : Z, k = Some k' -> (k' <= len r)%Z) ->
  count_relevant (first_k r k) = 0%Z -> (0 <= max_rel)%Z ->
  f1_score_at_k r max_rel k = Ok NaN.
Proof.
  intros Hv Hfit Hc Hm. unfold f1_score_at_k.
  assert (Hp : exists p, precision_at_k r k = Ok p /\
                 (p = NaN \/ exists x, p = Fin x /\ x == 0)).
  { destruct (nil_or_not (first_k r k)) as [E|Hne].
    - destruct (window_empty r k Hv Hfit E) as [-> ->].
      exists NaN. split; [reflexivity|now left].
    - rewrite precision_at_k_window by assumption.
      rewrite Hc. eexists. split; [reflexivity|]. right.
      eexists. split; [reflexivity|apply frac_zero]. }
  destruct Hp as [p [-> Hp]]. cbn [bind].
  rewrite recall_at_k_unfold by assumption. rewrite Hc.
  destruct (Z.gtb_spec 0 max_rel); [lia|]. cbn [bind]. f_equal.
  destruct Hp as [-> | [x [-> Hx]]]; [reflexivity|].
  unfold true_divide. destruct (Z.eqb_spec max_rel 0).
  - reflexivity.
  - fold (frac 0 max_rel). cbn [np_mul np_add np_div].
    assert (Hy : x + frac 0 max_rel == 0).
    { rewrite Hx, frac_zero. reflexivity. }
    assert (Hz : 2 * x * frac 0 max_rel == 0).
    { rewrite Hx. ring. }
    now rewrite (Qnum_zero _ Hy), (Qnum_zero _ Hz).
Qed.

Lemma f1_score_at_k_nan_witness :
  f1_score_at_k [0; 0; 1]%Z 2 (Some 2%Z) = Ok NaN.
Proof.
  apply (f1_score_at_k_nan [0; 0; 1]%Z 2 (Some 2%Z)).
  - simpl. lia.
  - intros k' E. injection E as <-. vm_compute. discriminate.
  - reflexivity.
  - lia.
Defined.

(** [f1_score_at_k] calls [precision_at_k] first: a cutoff beyond the
    end of the vector raises [ValueError] whatever [max_rel]; with a
    cutoff that fits, more relevant items in the window than [max_rel]
    raises the [ValueError] of [recall_at_k]. *)
Theorem f1_score_at_k_raises (r : list Z) (max_rel : Z) :
  (forall k : Z, (len r < k)%Z ->
     f1_score_at_k r max_rel (Some k) = Raise ValueError) /\
  (forall k : option Z,
     valid_cutoff k ->
     (forall k' : Z, k = Some k' -> (k' <= len r)%Z) ->
     (max_rel < count_relevant (first_k r k))%Z ->
     f1_score_at_k r max_rel k = Raise ValueError).
Proof.
  split.
  - intros k Hk. unfold f1_score_at_k.
    now rewrite precision_at_k_short.
  - intros k Hv Hfit Hc. unfold f1_score_at_k.
    pose proof (count_relevant_bounds (first_k r k)) as [Hc0 Hcn].
    assert (Hr : recall_at_k r max_rel k = Raise ValueError).
    { rewrite recall_at_k_unfold by assumption.
      destruct (Z.gtb_spec (count_relevant (first_k r k)) max_rel);
        [reflexivity|lia]. }
    destruct (nil_or_not (first_k r k)) as [E|Hne].
    + destruct (window_empty r k Hv Hfit E) as [-> ->].
      change (precision_at_k [] None) with (Ok NaN). cbn [bind].
      now rewrite Hr.
    + rewrite precision_at_k_window by assumption.
      cbn [bind]. now rewrite Hr.
Qed.

Lemma f1_score_at_k_raises_witness :
  f1_score_at_k [1; 1]%Z 5 (Some 3%Z) = Raise ValueError /\
  f1_score_at_k [1; 1; 0]%Z 1 (Some 2%Z) = Raise ValueError.
Proof.
  split.
  - apply (proj1 (f1_score_at_k_raises [1; 1]%Z 5) 3%Z).
    vm_compute. reflexivity.
  - apply (proj2 (f1_score_at_k_raises [1; 1; 0]%Z 1) (Some 2%Z)).
    + simpl. lia.
    + intros k' E. injection E as <-. vm_compute. discriminate.
    + vm_compute. reflexivity.
Defined.

(** ** Relevance is binary *)

Lemma nonzero_from_ne0 (i : Z) (r : list Z) :
  nonzero_from i (ne0 r) = nonzero_from i r.
Proof.
  revert i. induction r as [|x r IH]; intros i; [reflexivity|].
  rewrite ne0_cons. cbn [nonzero_from]. rewrite IH. reflexivity.
Qed.

Lemma nonzero_same_pattern (r r' : list Z) :
  ne0 r = ne0 r' -> nonzero r = nonzero r'.
Proof.
  intros E. unfold nonzero.
  now rewrite <- (nonzero_from_ne0 0 r), <- (nonzero_from_ne0 0 r'), E.
Qed.

Lemma mapM_pairwise {A B : Type} (f : A -> result B) (l l' : list A) :
  Forall2 (fun x x' => f x = f x') l l' -> mapM f l = mapM f l'.
Proof.
  induction 1 as [|x x' l l' Hx _ IH]; simpl; [reflexivity|].
  now rewrite Hx, IH.
Qed.

(** The metrics of one vector, [hit_rate_at_k] apart, read the scores
    only through the test [!= 0]: two vectors with the same relevant
    positions get the same precision, recall, F1, average precision and
    R-precision, errors included. *)
Theorem same_relevant_positions (r r' : list Z) (max_rel : Z) (k : option Z) :
  ne0 r = ne0 r' ->
  precision_at_k r k = precision_at_k r' k /\
  recall_at_k r max_rel k = recall_at_k r' max_rel k /\
  f1_score_at_k r max_rel k = f1_score_at_k r' max_rel k /\
  average_precision r = average_precision r' /\
  r_precision r = r_precision r'.
Proof.
  intros E.
  assert (Hp : precision_at_k r k = precision_at_k r' k).
  { now rewrite <- (precision_at_k_ne0 r), <- (precision_at_k_ne0 r'), E. }
  assert (Hr : recall_at_k r max_rel k = recall_at_k r' max_rel k).
  { unfold recall_at_k, ne0. rewrite <- !slice_to_map.
    fold (ne0 r). fold (ne0 r'). now rewrite E. }
  split; [exact Hp|]. split; [exact Hr|]. split; [|split].
  - unfold f1_score_at_k. now rewrite Hp, Hr.
  - unfold average_precision. now rewrite E.
  - unfold r_precision. now rewrite E.
Qed.

Lemma same_relevant_positions_witness :
  precision_at_k [3; 0; -2]%Z (Some 2%Z) = precision_at_k [1; 0; 1]%Z (Some 2%Z) /\
  recall_at_k [3; 0; -2]%Z 4 (Some 2%Z) = recall_at_k [1; 0; 1]%Z 4 (Some 2%Z) /\
  f1_score_at_k [3; 0; -2]%Z 4 (Some 2%Z) =
    f1_score_at_k [1; 0; 1]%Z 4 (Some 2%Z) /\
  average_precision [3; 0; -2]%Z = average_precision [1; 0; 1]%Z /\
  r_precision [3; 0; -2]%Z = r_precision [1; 0; 1]%Z.
Proof.
  apply (same_relevant_positions [3; 0; -2]%Z [1; 0; 1]%Z 4 (Some 2%Z)).
  reflexivity.
Defined.

(** The same holds for the means over a collection: they depend only on
    the relevant positions of each vector. *)
Theorem same_relevant_positions_collection (rs rs' : list (list Z)) :
  Forall2 (fun r r' => ne0 r = ne0 r') rs rs' ->
  mean_rank rs = mean_rank rs' /\
  mean_reciprocal_rank rs = mean_reciprocal_rank rs' /\
  mean_average_precision rs = mean_average_precision rs'.
Proof.
  intros H. split; [|split].
  - unfold mean_rank. erewrite mapM_pairwise; [reflexivity|].
    eapply Forall2_impl; [|exact H]. intros r r' E. cbv beta.
    now rewrite (nonzero_same_pattern r r' E).
  - unfold mean_reciprocal_rank. do 3 f_equal.
    induction H as [|r r' l l' E _ IH]; simpl; [reflexivity|].
    now rewrite IH, (nonzero_same_pattern r r' E).
  - unfold mean_average_precision. erewrite mapM_pairwise; [reflexivity|].
    eapply Forall2_impl; [|exact H]. intros r r' E. cbv beta.
    unfold average_precision. now rewrite E.
Qed.

Lemma same_relevant_positions_collection_witness :
  mean_rank [[0; 5]; [-1; 0]]%Z = mean_rank [[0; 1]; [1; 0]]%Z /\
  mean_reciprocal_rank [[0; 5]; [-1; 0]]%Z =
    mean_reciprocal_rank [[0; 1]; [1; 0]]%Z /\
  mean_average_precision [[0; 5]; [-1; 0]]%Z =
    mean_average_precision [[0; 1]; [1; 0]]%Z.
Proof.
  apply (same_relevant_positions_collection
           [[0; 5]; [-1; 0]]%Z [[0; 1]; [1; 0]]%Z).
  repeat constructor.
Defined.
(* ================================================================== *)
(** * Facts on the gain-based metrics *)
(* ================================================================== *)

Local Open Scope R_scope.

(* ================================================================== *)
(** * [dcg_at_k] *)
(* ================================================================== *)

Lemma np_rsum_acc (l : list R) (a : R) :
  fold_left Rplus l a = a + np_rsum l.
Proof.
  unfold np_rsum. revert a.
  induction l as [|x l IH]; intros a; simpl.
  - ring.
  - rewrite IH, (IH (0 + x)). ring.
Qed.

Lemma np_rsum_cons (x : R) (l : list R) : np_rsum (x :: l) = x + np_rsum l.
Proof. unfold np_rsum at 1. simpl. rewrite np_rsum_acc. ring. Qed.

Lemma arange_cons (a b : Z) :
  (a < b)%Z -> arange a b = a :: arange (a + 1) b.
Proof.
  intros Hab. unfold arange.
  replace (Z.to_nat (b - a)) with (S (Z.to_nat (b - (a + 1)))) by lia.
  cbn [seq map]. rewrite Z.add_0_r. f_equal.
  rewrite <- seq_shift, map_map. apply map_ext. intros n. lia.
Qed.

Lemma arange_nil (a b : Z) : (b <= a)%Z -> arange a b = [].
Proof.
  intros Hab. unfold arange.
  now replace (Z.to_nat (b - a)) with 0%nat by lia.
Qed.

Lemma np_divide_log2 (l : list R) (a : Z) :
  exists q : list R,
    np_divide l (np_log2 (arange a (a + len l))) = Ok q /\
    np_rsum q = log_sum a l.
Proof.
  revert a. induction l as [|x l IH]; intros a.
  - exists []. unfold len. simpl. rewrite arange_nil by lia.
    split; reflexivity.
  - pose proof (len_nonneg l) as Hl.
    rewrite len_cons, arange_cons by lia.
    destruct (IH (a + 1)%Z) as [q [Hq Hs]].
    replace (a + (len l + 1))%Z with (a + 1 + len l)%Z by lia.
    exists (x / log2 (IZR a) :: q). cbn [np_log2 map np_divide].
    fold (np_log2 (arange (a + 1) (a + 1 + len l))).
    rewrite Hq. cbn [bind]. split; [reflexivity|].
    rewrite np_rsum_cons, Hs. reflexivity.
Qed.

Lemma discounted_sum_method1 (i : Z) (l : list R) :
  discounted_sum 1 i l = log_sum (i + 1) l.
Proof.
  revert i. induction l as [|x l IH]; intros i; simpl; [reflexivity|].
  now rewrite IH.
Qed.

Lemma discounted_sum_method0 (i : Z) (l : list R) :
  (2 <= i)%Z -> discounted_sum 0 i l = log_sum i l.
Proof.
  revert i. induction l as [|x l IH]; intros i Hi; simpl; [reflexivity|].
  rewrite IH by lia. unfold discount. simpl.
  destruct (Z.eqb_spec i 1); [lia|reflexivity].
Qed.

(** The value of [dcg_at_k] in terms of the restricted vector. *)
Lemma dcg_at_k_unfold (r : list R) (k : option Z) (method : Z) :
  dcg_at_k r k method =
  match slice_to r k with
  | [] => Ok 0
  | x :: l =>
      if (method =? 0)%Z then Ok (x + log_sum 2 l)
      else if (method =? 1)%Z then Ok (log_sum 2 (x :: l))
      else Raise ValueError
  end.
Proof.
  unfold dcg_at_k. destruct (slice_to r k) as [|x l]; [reflexivity|].
  pose proof (len_nonneg l) as Hl. rewrite len_cons.
  destruct (Z.eqb_spec (len l + 1) 0); [lia|]. cbn [negb].
  destruct (method =? 0)%Z.
  - change (item (x :: l) 0) with (Ok x).
    change (slice_from (x :: l) 1) with l. cbn [bind].
    destruct (np_divide_log2 l 2) as [q [Hq Hs]].
    replace (len l + 1 + 1)%Z with (2 + len l)%Z by lia.
    rewrite Hq. cbn [bind]. now rewrite Hs.
  - destruct (method =? 1)%Z; [|reflexivity].
    destruct (np_divide_log2 (x :: l) 2) as [q [Hq Hs]].
    rewrite len_cons in Hq.
    replace (len l + 1 + 2)%Z with (2 + (len l + 1))%Z by lia.
    rewrite Hq. cbn [bind]. now rewrite Hs.
Qed.

Lemma dcg_at_k_valid_method (r : list R) (k : option Z) (method : Z) :
  method = 0%Z \/ method = 1%Z ->
  dcg_at_k r k method = Ok (dcg_spec method (slice_to r k)).
Proof.
  intros Hm. rewrite dcg_at_k_unfold. unfold dcg_spec.
  destruct (slice_to r k) as [|x l]; [reflexivity|].
  destruct Hm as [-> | ->]; cbn [Z.eqb].
  - cbn [discounted_sum]. rewrite discounted_sum_method0 by lia.
    unfold discount. cbn [Z.eqb Pos.eqb]. f_equal.
    change (1 + 1)%Z with 2%Z. field.
  - rewrite discounted_sum_method1. reflexivity.
Qed.

Lemma ln_2_pos : 0 < ln 2.
Proof. rewrite <- ln_1. apply ln_increasing; lra. Qed.

Lemma log2_2 : log2 2 = 1.
Proof. unfold log2. field. pose proof ln_2_pos. lra. Qed.

Lemma log2_le (x y : R) : 0 < x -> x <= y -> log2 x <= log2 y.
Proof.
  intros Hx [Hlt | ->]; [|lra].
  unfold log2. pose proof ln_2_pos as H2.
  pose proof (ln_increasing x y Hx Hlt).
  apply Rmult_le_compat_r; [|lra].
  apply Rlt_le, Rinv_0_lt_compat, H2.
Qed.

Lemma log2_pos (x : R) : 1 < x -> 0 < log2 x.
Proof.
  intros Hx. unfold log2. pose proof ln_2_pos as H2.
  assert (0 < ln x) by (rewrite <- ln_1; apply ln_increasing; lra).
  apply Rdiv_lt_0_compat; assumption.
Qed.

(** C7.  For a cutoff [k >= 0] and [method] 0 or 1, [dcg_at_k] works on the
    first [k] positions (all of them if the vector is shorter), returns 0.0
    when there is none, and otherwise sums the elements divided by their
    discount: under method 0 the discount is 1 at position 1 and [log2 i]
    at position [i >= 2] (which is 1 at position 2), under method 1 it is
    [log2 (i + 1)] at every position [i]. *)
Theorem dcg_at_k_spec (r : list R) (k : Z) (method : Z) :
  (0 <= k)%Z -> method = 0%Z \/ method = 1%Z ->
  dcg_at_k r (Some k) method =
    Ok (dcg_spec method (firstn (Z.to_nat k) r)) /\
  (firstn (Z.to_nat k) r = [] -> dcg_at_k r (Some k) method = Ok 0) /\
  discount 0 1 = 1 /\ discount 0 2 = 1 /\
  (forall i : Z, (2 <= i)%Z -> discount 0 i = log2 (IZR i)) /\
  (forall i : Z, discount 1 i = log2 (IZR (i + 1))).
Proof.
  intros Hk Hm.
  assert (Hd : dcg_at_k r (Some k) method =
               Ok (dcg_spec method (firstn (Z.to_nat k) r))).
  { rewrite dcg_at_k_valid_method by assumption.
    now rewrite slice_to_valid by exact Hk. }
  split; [exact Hd|]. split; [|split; [|split; [|split]]].
  - intros E. rewrite Hd, E. reflexivity.
  - reflexivity.
  - unfold discount. simpl. apply log2_2.
  - intros i Hi. unfold discount. simpl.
    destruct (Z.eqb_spec i 1); [lia|reflexivity].
  - reflexivity.
Qed.

Lemma dcg_at_k_spec_witness :
  dcg_at_k [3; 2; 3] (Some 2%Z) 0 = Ok (dcg_spec 0 (firstn 2 [3; 2; 3])) /\
  dcg_at_k [3; 2; 3] (Some 0%Z) 1 = Ok 0 /\
  discount 0 3 = log2 3.
Proof.
  split; [|split].
  - apply (dcg_at_k_spec [3; 2; 3] 2 0); [lia|now left].
  - apply (dcg_at_k_spec [3; 2; 3] 0 1); [lia|now right|reflexivity].
  - apply (dcg_at_k_spec [3; 2; 3] 2 0); [lia|now left|lia].
Defined.

(** The two discounting schemes on a three-element vector. *)
Lemma dcg_at_k_three (a b c : R) :
  dcg_at_k [a; b; c] (Some 3%Z) 0 = Ok (a + b + c / log2 3) /\
  dcg_at_k [a; b; c] (Some 3%Z) 1 = Ok (a + b / log2 3 + c / log2 4).
Proof.
  rewrite !dcg_at_k_unfold. cbn [slice_to Z.ltb Z.compare].
  change (firstn (Z.to_nat 3) [a; b; c]) with [a; b; c].
  cbn [Z.eqb Pos.eqb log_sum].
  change (2 + 1)%Z with 3%Z. change (3 + 1)%Z with 4%Z.
  rewrite log2_2.
  pose proof (log2_pos 3 ltac:(lra)). pose proof (log2_pos 4 ltac:(lra)).
  split; f_equal; field; repeat split; lra.
Qed.

(* ================================================================== *)
(** * The [method] argument *)
(* ================================================================== *)

Lemma length_insert_desc (x : R) (l : list R) :
  length (insert_desc x l) = S (length l).
Proof.
  induction l as [|y l IH]; simpl; [reflexivity|].
  destruct (Rle_dec y x); simpl; [reflexivity|now rewrite IH].
Qed.

Lemma length_sorted_reverse (r : list R) :
  length (sorted_reverse r) = length r.
Proof.
  induction r as [|x r IH]; simpl; [reflexivity|].
  now rewrite length_insert_desc, IH.
Qed.

Lemma slice_to_nil_len {A B : Type} (r : list A) (s : list B) (k : option Z) :
  length r = length s -> slice_to r k = [] -> slice_to s k = [].
Proof.
  intros Hlen Hr.
  assert (Hz : len (slice_to r k) = 0%Z) by now rewrite Hr.
  rewrite len_slice_to in Hz.
  assert (Hs : len (slice_to s k) = 0%Z).
  { rewrite len_slice_to. unfold len in *. now rewrite <- Hlen. }
  destruct (slice_to s k); [reflexivity|].
  rewrite len_cons in Hs. pose proof (len_nonneg l). lia.
Qed.

(** C1 (as amended).  With a [method] other than 0 and 1, [dcg_at_k] and
    [ndcg_at_k] raise [ValueError] whenever the restriction [r[:k]] is not
    empty; on an empty restriction both return 0.0 and [method] is not
    examined. *)
Theorem dcg_at_k_bad_method (r : list R) (k : option Z) (method : Z) :
  method <> 0%Z -> method <> 1%Z ->
  (slice_to r k <> [] ->
     dcg_at_k r k method = Raise ValueError /\
     ndcg_at_k r k method = Raise ValueError) /\
  (slice_to r k = [] ->
     dcg_at_k r k method = Ok 0 /\ ndcg_at_k r k method = Ok 0).
Proof.
  intros H0 H1.
  assert (Hbad : forall s : list R, slice_to s k <> [] ->
                 dcg_at_k s k method = Raise ValueError).
  { intros s Hs. rewrite dcg_at_k_unfold.
    destruct (slice_to s k); [contradiction|].
    destruct (Z.eqb_spec method 0); [contradiction|].
    destruct (Z.eqb_spec method 1); [contradiction|reflexivity]. }
  assert (Hnil : forall s : list R, slice_to s k = [] ->
                 dcg_at_k s k method = Ok 0).
  { intros s Hs. now rewrite dcg_at_k_unfold, Hs. }
  split.
  - intros Hr. split; [now apply Hbad|].
    unfold ndcg_at_k. rewrite Hbad; [reflexivity|].
    intros Hs. apply Hr.
    apply (slice_to_nil_len (sorted_reverse r) r k);
      [apply length_sorted_reverse|exact Hs].
  - intros Hr. split; [now apply Hnil|].
    unfold ndcg_at_k. rewrite Hnil.
    + cbn [bind]. destruct (Req_dec_T 0 0); [reflexivity|contradiction].
    + apply (slice_to_nil_len r (sorted_reverse r) k);
        [symmetry; apply length_sorted_reverse|exact Hr].
Qed.

Lemma dcg_at_k_bad_method_witness :
  (dcg_at_k [3; 2] (Some 2%Z) 2 = Raise ValueError /\
   ndcg_at_k [3; 2] (Some 2%Z) 2 = Raise ValueError) /\
  (dcg_at_k [3; 2] (Some 0%Z) 2 = Ok 0 /\
   ndcg_at_k [3; 2] (Some 0%Z) 2 = Ok 0).
Proof.
  split.
  - apply (proj1 (dcg_at_k_bad_method [3; 2] (Some 2%Z) 2
                    ltac:(discriminate) ltac:(discriminate))).
    simpl. discriminate.
  - apply (proj2 (dcg_at_k_bad_method [3; 2] (Some 0%Z) 2
                    ltac:(discriminate) ltac:(discriminate))).
    reflexivity.
Defined.

(** On an empty vector [dcg_at_k] and [ndcg_at_k] return 0.0 for
    [method = 2]: no error is raised. *)
Lemma dcg_at_k_empty_any_method :
  (2 <> 0)%Z /\ (2 <> 1)%Z /\
  dcg_at_k [] (Some 1%Z) 2 = Ok 0 /\
  ndcg_at_k [] (Some 1%Z) 2 = Ok 0 /\
  dcg_at_k [] (Some 1%Z) 2 <> Raise ValueError /\
  ndcg_at_k [] (Some 1%Z) 2 <> Raise ValueError.
Proof.
  assert (Hn : ndcg_at_k [] (Some 1%Z) 2 = Ok 0).
  { unfold ndcg_at_k. simpl.
    destruct (Req_dec_T 0 0); [reflexivity|contradiction]. }
  repeat split; try discriminate; try reflexivity; try exact Hn.
  rewrite Hn. discriminate.
Qed.

(* ================================================================== *)
(** * [sorted(r, reverse=True)] *)
(* ================================================================== *)

Lemma insert_desc_perm (x : R) (l : list R) :
  Permutation (x :: l) (insert_desc x l).
Proof.
  induction l as [|y l IH]; simpl; [reflexivity|].
  destruct (Rle_dec y x); [reflexivity|].
  rewrite perm_swap. now apply perm_skip.
Qed.

Lemma sorted_reverse_perm (r : list R) : Permutation r (sorted_reverse r).
Proof.
  induction r as [|x r IH]; simpl; [reflexivity|].
  rewrite <- insert_desc_perm. now apply perm_skip.
Qed.

Lemma insert_desc_sorted (x : R) (l : list R) :
  Sorted Rge l -> Sorted Rge (insert_desc x l).
Proof.
  induction 1 as [|y l Hl IH Hhd]; simpl.
  - repeat constructor.
  - destruct (Rle_dec y x) as [Hle|Hgt].
    + constructor; [now constructor|]. constructor. lra.
    + constructor; [exact IH|].
      destruct l as [|z l]; simpl.
      * constructor. lra.
      * destruct (Rle_dec z x); constructor; [lra|].
        now inversion Hhd.
Qed.

Lemma sorted_reverse_sorted (r : list R) : Sorted Rge (sorted_reverse r).
Proof.
  induction r as [|x r IH]; simpl; [constructor|].
  now apply insert_desc_sorted.
Qed.

Lemma sorted_reverse_nonneg (r : list R) :
  Forall (fun x => 0 <= x) r -> Forall (fun x => 0 <= x) (sorted_reverse r).
Proof.
  intros Hr. rewrite Forall_forall in *. intros x Hx. apply Hr.
  eapply Permutation_in; [|exact Hx].
  symmetry. apply sorted_reverse_perm.
Qed.

(* ================================================================== *)
(** * Rearrangement: the sorted vector maximises a discounted sum *)
(* ================================================================== *)

Section Rearrangement.

Variable w : nat -> R.
Hypothesis w_nonneg : forall i : nat, 0 <= w i.
Hypothesis w_antitone : forall i : nat, w (S i) <= w i.

Lemma weighted_sum_nonneg (i : nat) (l : list R) :
  Forall (fun x => 0 <= x) l -> 0 <= weighted_sum w i l.
Proof.
  intros Hl. revert i. induction Hl as [|x l Hx _ IH]; intros i; simpl.
  - lra.
  - specialize (IH (S i)). pose proof (w_nonneg i). nra.
Qed.

(** Moving an element to its place in a descending list does not lower
    the weighted sum of any prefix. *)
Lemma weighted_sum_insert (x : R) (s : list R) :
  0 <= x -> Forall (fun y => 0 <= y) s ->
  forall i n : nat,
    weighted_sum w i (firstn n (x :: s)) <=
    weighted_sum w i (firstn n (insert_desc x s)).
Proof.
  intros Hx Hs. induction Hs as [|y s Hy Hs IH]; intros i n.
  - simpl. lra.
  - cbn [insert_desc]. destruct (Rle_dec y x) as [Hle|Hgt]; [lra|].
    destruct n as [|n]; [simpl; lra|].
    cbn [firstn weighted_sum].
    specialize (IH (S i) n).
    destruct n as [|n].
    + cbn [firstn weighted_sum] in *.
      pose proof (w_nonneg i). nra.
    + cbn [firstn weighted_sum] in *.
      pose proof (w_antitone i). pose proof (w_nonneg (S i)).
      nra.
Qed.

Lemma weighted_sum_sorted (r : list R) :
  Forall (fun x => 0 <= x) r ->
  forall i n : nat,
    weighted_sum w i (firstn n r) <=
    weighted_sum w i (firstn n (sorted_reverse r)).
Proof.
  induction 1 as [|x r Hx Hr IH]; intros i n; [simpl; lra|].
  cbn [sorted_reverse fold_right]. fold (sorted_reverse r).
  eapply Rle_trans;
    [|apply weighted_sum_insert; [exact Hx|now apply sorted_reverse_nonneg]].
  destruct n as [|n]; [simpl; lra|].
  cbn [firstn weighted_sum]. specialize (IH (S i) n). lra.
Qed.

End Rearrangement.

(* ================================================================== *)
(** * [ndcg_at_k] *)
(* ================================================================== *)

Section Weights.

Variable method : Z.
Hypothesis method_valid : method = 0%Z \/ method = 1%Z.

Lemma discount_ge_1 (i : Z) : (1 <= i)%Z -> 1 <= discount method i.
Proof.
  intros Hi. unfold discount. rewrite <- log2_2.
  destruct method_valid as [-> | ->]; simpl.
  - destruct (Z.eqb_spec i 1); [rewrite log2_2; lra|].
    apply log2_le; [lra|]. apply (IZR_le 2 i). lia.
  - apply log2_le; [lra|]. apply (IZR_le 2 (i + 1)). lia.
Qed.

Lemma discount_mono (i : Z) :
  (1 <= i)%Z -> discount method i <= discount method (i + 1).
Proof.
  intros Hi. unfold discount.
  destruct method_valid as [-> | ->]; simpl.
  - destruct (Z.eqb_spec (i + 1) 1); [lia|].
    destruct (Z.eqb_spec i 1) as [-> | Hne].
    + simpl. rewrite log2_2. lra.
    + apply log2_le; [apply (IZR_lt 0 i); lia|apply IZR_le; lia].
  - apply log2_le; [apply (IZR_lt 0 (i + 1)); lia|apply IZR_le; lia].
Qed.

Lemma gain_weight_nonneg (j : nat) : 0 <= gain_weight method j.
Proof.
  unfold gain_weight.
  pose proof (discount_ge_1 (Z.of_nat j + 1) ltac:(lia)).
  apply Rlt_le, Rinv_0_lt_compat. lra.
Qed.

Lemma gain_weight_antitone (j : nat) :
  gain_weight method (S j) <= gain_weight method j.
Proof.
  unfold gain_weight.
  pose proof (discount_ge_1 (Z.of_nat j + 1) ltac:(lia)).
  pose proof (discount_mono (Z.of_nat j + 1) ltac:(lia)) as Hm.
  replace (Z.of_nat (S j) + 1)%Z with (Z.of_nat j + 1 + 1)%Z by lia.
  apply Rinv_le_contravar; lra.
Qed.

Lemma discounted_sum_weighted (j : nat) (l : list R) :
  discounted_sum method (Z.of_nat j + 1) l =
  weighted_sum (gain_weight method) j l.
Proof.
  revert j. induction l as [|x l IH]; intros j; simpl; [reflexivity|].
  rewrite <- IH.
  replace (Z.of_nat (S j) + 1)%Z with (Z.of_nat j + 1 + 1)%Z by lia.
  reflexivity.
Qed.

Lemma dcg_spec_weighted (l : list R) :
  dcg_spec method l = weighted_sum (gain_weight method) 0 l.
Proof. unfold dcg_spec. now rewrite <- discounted_sum_weighted. Qed.

(** The DCG of the first [n] elements is at most that of the first [n]
    elements of the descending-sorted vector, and is not negative. *)
Lemma dcg_spec_ideal (r : list R) (n : nat) :
  Forall (fun x => 0 <= x) r ->
  0 <= dcg_spec method (firstn n r) <=
  dcg_spec method (firstn n (sorted_reverse r)).
Proof.
  intros Hr. rewrite !dcg_spec_weighted. split.
  - apply weighted_sum_nonneg; [apply gain_weight_nonneg|].
    now apply Forall_first_n.
  - apply weighted_sum_sorted;
      [apply gain_weight_nonneg|apply gain_weight_antitone|exact Hr].
Qed.

End Weights.

(** C2 (as amended).  For non-negative gains, [k >= 1] and [method] 0 or
    1, [ndcg_at_k] is 0.0 when the DCG of the descending-sorted vector is
    zero and otherwise the DCG of the vector divided by that ideal DCG;
    over exact real arithmetic the result lies in [0, 1].  (With the
    rounding of binary64 the quotient can exceed 1:
    [ndcg_at_k_f64_above_one] below.) *)
Theorem ndcg_at_k_spec (r : list R) (k : Z) (method : Z) :
  Forall (fun x => 0 <= x) r -> (1 <= k)%Z ->
  method = 0%Z \/ method = 1%Z ->
  exists d ideal : R,
    dcg_at_k r (Some k) method = Ok d /\
    dcg_at_k (sorted_reverse r) (Some k) method = Ok ideal /\
    ndcg_at_k r (Some k) method =
      Ok (if Req_dec_T ideal 0 then 0 else d / ideal) /\
    0 <= (if Req_dec_T ideal 0 then 0 else d / ideal) <= 1.
Proof.
  intros Hr Hk Hm.
  exists (dcg_spec method (firstn (Z.to_nat k) r)),
         (dcg_spec method (firstn (Z.to_nat k) (sorted_reverse r))).
  pose proof (dcg_at_k_valid_method r (Some k) method Hm) as Hd.
  pose proof (dcg_at_k_valid_method (sorted_reverse r) (Some k) method Hm)
    as Hi.
  rewrite slice_to_valid in Hd, Hi by (simpl; lia). simpl first_k in Hd, Hi.
  pose proof (dcg_spec_ideal method Hm r (Z.to_nat k) Hr) as [Hd0 Hle].
  split; [exact Hd|]. split; [exact Hi|]. split.
  - unfold ndcg_at_k. rewrite Hi. cbn [bind].
    destruct (Req_dec_T _ 0); [reflexivity|].
    rewrite Hd. reflexivity.
  - destruct (Req_dec_T _ 0) as [E|Hne]; [lra|].
    split.
    + apply Rle_mult_inv_pos; lra.
    + match goal with
      | |- _ / ?ideal <= 1 =>
          apply (Rmult_le_reg_r ideal); [lra|];
          unfold Rdiv; rewrite Rmult_assoc, Rinv_l by lra; lra
      end.
Qed.

Lemma ndcg_at_k_spec_witness :
  exists d ideal : R,
    dcg_at_k [1; 0; 2] (Some 2%Z) 0 = Ok d /\
    dcg_at_k (sorted_reverse [1; 0; 2]) (Some 2%Z) 0 = Ok ideal /\
    ndcg_at_k [1; 0; 2] (Some 2%Z) 0 =
      Ok (if Req_dec_T ideal 0 then 0 else d / ideal) /\
    0 <= (if Req_dec_T ideal 0 then 0 else d / ideal) <= 1.
Proof.
  apply (ndcg_at_k_spec [1; 0; 2] 2 0).
  - repeat constructor; lra.
  - lia.
  - now left.
Defined.

(** In binary64 the bound of [ndcg_at_k_spec] can fail by one unit in the
    last place.  On the non-negative gains [[3.01, 2**53, 1.6]] with
    [k = 3] and [method = 0], the DCG is [3.01 + (2**53 + 1.6/log2(3))],
    which rounds to [2**53 + 6], and the ideal DCG of the sorted vector
    [[2**53, 3.01, 1.6]] is [2**53 + (3.01 + 1.6/log2(3))], which rounds
    to [2**53 + 4]: the quotient is 1.0000000000000002. *)
Lemma ndcg_at_k_f64_above_one :
  forallb (fun x => (0 <=? x)%float)
    [0x1.8147ae147ae14p+1; 0x1p+53; 0x1.999999999999ap+0]%float = true /\
  dcg_at_k_f64 log2_table
    [0x1.8147ae147ae14p+1; 0x1p+53; 0x1.999999999999ap+0]%float
    (Some 3%Z) 0 = Ok 0x1.0000000000003p+53%float /\
  dcg_at_k_f64 log2_table
    (sorted_reverse_f64
       [0x1.8147ae147ae14p+1; 0x1p+53; 0x1.999999999999ap+0]%float)
    (Some 3%Z) 0 = Ok 0x1.0000000000002p+53%float /\
  ndcg_at_k_f64 log2_table
    [0x1.8147ae147ae14p+1; 0x1p+53; 0x1.999999999999ap+0]%float
    (Some 3%Z) 0 = Ok 0x1.0000000000001p+0%float /\
  (1 <? 0x1.0000000000001p+0)%float = true.
Proof. vm_compute. repeat split. Qed.

(* ================================================================== *)
(** * Further properties of the gain-based metrics *)
(* ================================================================== *)

(** ** The ideal ordering *)

(** A descending list is determined by its elements. *)
Lemma sorted_desc_unique (l1 l2 : list R) :
  Sorted Rge l1 -> Sorted Rge l2 -> Permutation l1 l2 -> l1 = l2.
Proof.
  intros H1 H2.
  apply Sorted_StronglySorted in H1; [|exact Rge_trans].
  apply Sorted_StronglySorted in H2; [|exact Rge_trans].
  revert l2 H2. induction H1 as [|a l1 Hs1 IH Ha]; intros l2 H2 Hp.
  - apply Permutation_nil in Hp. now subst.
  - destruct H2 as [|b l2 Hs2 Hb].
    + symmetry in Hp. apply Permutation_nil in Hp. discriminate.
    + assert (Hab : a = b).
      { rewrite Forall_forall in Ha, Hb.
        assert (Hin_a : In a (b :: l2))
          by (eapply Permutation_in; [exact Hp|now left]).
        assert (Hin_b : In b (a :: l1))
          by (eapply Permutation_in; [symmetry; exact Hp|now left]).
        destruct Hin_a as [E|Hin_a]; [now symmetry|].
        destruct Hin_b as [E|Hin_b]; [exact E|].
        specialize (Ha _ Hin_b). specialize (Hb _ Hin_a). lra. }
      subst b. f_equal. apply IH; [exact Hs2|].
      now apply Permutation_cons_inv in Hp.
Qed.

Lemma sorted_reverse_permutation (r r' : list R) :
  Permutation r r' -> sorted_reverse r = sorted_reverse r'.
Proof.
  intros Hp. apply sorted_desc_unique; try apply sorted_reverse_sorted.
  rewrite <- (sorted_reverse_perm r), <- (sorted_reverse_perm r').
  exact Hp.
Qed.

Lemma sorted_reverse_fixed (r : list R) :
  Sorted Rge r -> sorted_reverse r = r.
Proof.
  intros Hs. apply sorted_desc_unique;
    [apply sorted_reverse_sorted|exact Hs|].
  symmetry. apply sorted_reverse_perm.
Qed.

(** Among all the orderings of non-negative gains, the descending one has
    the largest DCG at every cutoff: this is the ideal DCG [ndcg_at_k]
    divides by. *)
Theorem dcg_at_k_ideal_max (r r' : list R) (k : Z) (method : Z) :
  Forall (fun x => 0 <= x) r -> Permutation r r' -> (0 <= k)%Z ->
  method = 0%Z \/ method = 1%Z ->
  exists d ideal : R,
    dcg_at_k r' (Some k) method = Ok d /\
    dcg_at_k (sorted_reverse r) (Some k) method = Ok ideal /\
    0 <= d <= ideal.
Proof.
  intros Hr Hp Hk Hm.
  assert (Hr' : Forall (fun x => 0 <= x) r').
  { rewrite Forall_forall in *. intros x Hx. apply Hr.
    eapply Permutation_in; [symmetry; exact Hp|exact Hx]. }
  rewrite (sorted_reverse_permutation r r' Hp).
  rewrite !dcg_at_k_valid_method by exact Hm.
  rewrite !slice_to_valid by exact Hk. simpl first_k.
  eexists. eexists. split; [reflexivity|]. split; [reflexivity|].
  now apply dcg_spec_ideal.
Qed.

Lemma dcg_at_k_ideal_max_witness :
  exists d ideal : R,
    dcg_at_k [2; 3; 1] (Some 2%Z) 1 = Ok d /\
    dcg_at_k (sorted_reverse [1; 2; 3]) (Some 2%Z) 1 = Ok ideal /\
    0 <= d <= ideal.
Proof.
  apply (dcg_at_k_ideal_max [1; 2; 3] [2; 3; 1] 2 1).
  - repeat constructor; lra.
  - apply (Permutation_cons_app [2; 3] [] 1). reflexivity.
  - lia.
  - now right.
Defined.

(** On a vector that is already in descending order, [ndcg_at_k] is 1,
    unless its DCG is zero, in which case it is 0. *)
Theorem ndcg_at_k_sorted (r : list R) (k : option Z) (method : Z) :
  Sorted Rge r -> method = 0%Z \/ method = 1%Z ->
  exists d : R,
    dcg_at_k r k method = Ok d /\
    ndcg_at_k r k method = Ok (if Req_dec_T d 0 then 0 else 1).
Proof.
  intros Hs Hm. unfold ndcg_at_k. rewrite (sorted_reverse_fixed r Hs).
  rewrite dcg_at_k_valid_method by exact Hm.
  eexists. split; [reflexivity|]. cbn [bind].
  destruct (Req_dec_T _ 0) as [E|Hne]; [reflexivity|].
  f_equal. now field.
Qed.

Lemma ndcg_at_k_sorted_witness :
  exists d : R,
    dcg_at_k [3; 2; 2; 0] (Some 3%Z) 0 = Ok d /\
    ndcg_at_k [3; 2; 2; 0] (Some 3%Z) 0 = Ok (if Req_dec_T d 0 then 0 else 1).
Proof.
  apply (ndcg_at_k_sorted [3; 2; 2; 0] (Some 3%Z) 0).
  - repeat constructor; lra.
  - now left.
Defined.

(** ** Scaling the gains *)

Lemma insert_desc_scale (c x : R) (l : list R) :
  0 < c ->
  insert_desc (c * x) (map (Rmult c) l) = map (Rmult c) (insert_desc x l).
Proof.
  intros Hc. induction l as [|y l IH]; simpl; [reflexivity|].
  destruct (Rle_dec (c * y) (c * x)) as [H|H], (Rle_dec y x) as [H'|H'].
  - reflexivity.
  - exfalso. apply H'. nra.
  - exfalso. apply H. nra.
  - simpl. now rewrite IH.
Qed.

Lemma sorted_reverse_scale (c : R) (r : list R) :
  0 < c -> sorted_reverse (map (Rmult c) r) = map (Rmult c) (sorted_reverse r).
Proof.
  intros Hc. induction r as [|x r IH]; simpl; [reflexivity|].
  fold (sorted_reverse (map (Rmult c) r)). fold (sorted_reverse r).
  now rewrite IH, insert_desc_scale.
Qed.

Lemma log_sum_scale (c : R) (a : Z) (l : list R) :
  log_sum a (map (Rmult c) l) = c * log_sum a l.
Proof.
  revert a. induction l as [|x l IH]; intros a; simpl; [ring|].
  rewrite IH. unfold Rdiv. ring.
Qed.

Lemma slice_to_Rmap (c : R) (r : list R) (k : option Z) :
  slice_to (map (Rmult c) r) k = map (Rmult c) (slice_to r k).
Proof.
  destruct k as [k|]; simpl; [|reflexivity].
  unfold len. rewrite length_map.
  destruct (k <? 0)%Z; now rewrite firstn_map.
Qed.

(** [dcg_at_k] is homogeneous: multiplying every gain by [c] multiplies
    the DCG by [c], and an error stays the same error. *)
Lemma dcg_at_k_scale (c : R) (r : list R) (k : option Z) (method : Z) :
  dcg_at_k (map (Rmult c) r) k method =
  match dcg_at_k r k method with
  | Ok d => Ok (c * d)
  | Raise e => Raise e
  end.
Proof.
  rewrite !dcg_at_k_unfold, slice_to_Rmap.
  destruct (slice_to r k) as [|x l]; cbn [map].
  - cbv iota. f_equal. ring.
  - cbv iota. destruct (method =? 0)%Z.
    + rewrite log_sum_scale. f_equal. ring.
    + destruct (method =? 1)%Z; [|reflexivity].
      change (c * x :: map (Rmult c) l) with (map (Rmult c) (x :: l)).
      now rewrite log_sum_scale.
Qed.

(** [ndcg_at_k] does not depend on the unit of the gains: multiplying
    every gain by a positive constant leaves the result unchanged. *)
Theorem ndcg_at_k_scale (c : R) (r : list R) (k : option Z) (method : Z) :
  0 < c ->
  ndcg_at_k (map (Rmult c) r) k method = ndcg_at_k r k method.
Proof.
  intros Hc. unfold ndcg_at_k.
  rewrite sorted_reverse_scale by exact Hc.
  rewrite !dcg_at_k_scale.
  destruct (dcg_at_k (sorted_reverse r) k method) as [dm|e]; [|reflexivity].
  cbn [bind].
  destruct (Req_dec_T (c * dm) 0) as [E|Hne], (Req_dec_T dm 0) as [E'|Hne'].
  - reflexivity.
  - exfalso. apply Hne'. nra.
  - exfalso. apply Hne. rewrite E'. ring.
  - destruct (dcg_at_k r k method) as [d|e]; [|reflexivity].
    cbn [bind]. f_equal. field. split; lra.
Qed.

Lemma ndcg_at_k_scale_witness :
  ndcg_at_k (map (Rmult 10) [3; 2; 3]) (Some 2%Z) 0 =
  ndcg_at_k [3; 2; 3] (Some 2%Z) 0.
Proof. apply (ndcg_at_k_scale 10 [3; 2; 3] (Some 2%Z) 0). lra. Defined.

(** ** The cutoff *)

(** A cutoff at or beyond the end of the vector is accepted by
    [dcg_at_k] and [ndcg_at_k] (unlike [precision_at_k]) and gives the
    result of the whole vector. *)
Theorem dcg_at_k_cutoff_beyond (r : list R) (k : Z) (method : Z) :
  (len r <= k)%Z ->
  dcg_at_k r (Some k) method = dcg_at_k r None method /\
  ndcg_at_k r (Some k) method = ndcg_at_k r None method.
Proof.
  intros Hk.
  assert (Hs : forall s : list R, length s = length r ->
               dcg_at_k s (Some k) method = dcg_at_k s None method).
  { intros s Hlen. rewrite !dcg_at_k_unfold.
    pose proof (len_nonneg r) as Hr.
    rewrite slice_to_valid by (simpl; lia). simpl.
    rewrite firstn_all2; [reflexivity|]. unfold len in Hk. lia. }
  split; [now apply Hs|].
  unfold ndcg_at_k.
  rewrite (Hs (sorted_reverse r)) by apply length_sorted_reverse.
  now rewrite (Hs r).
Qed.

Lemma dcg_at_k_cutoff_beyond_witness :
  dcg_at_k [3; 2] (Some 5%Z) 1 = dcg_at_k [3; 2] None 1 /\
  ndcg_at_k [3; 2] (Some 5%Z) 1 = ndcg_at_k [3; 2] None 1.
Proof.
  apply (dcg_at_k_cutoff_beyond [3; 2] 5 1). vm_compute. discriminate.
Defined.

Lemma weighted_sum_firstn_mono (w : nat -> R) (l : list R) :
  (forall i : nat, 0 <= w i) -> Forall (fun x => 0 <= x) l ->
  forall i n n' : nat, (n <= n')%nat ->
    weighted_sum w i (firstn n l) <= weighted_sum w i (firstn n' l).
Proof.
  intros Hw Hl. induction Hl as [|x l Hx Hl IH]; intros i n n' Hn.
  - rewrite !firstn_nil. lra.
  - destruct n as [|n].
    + apply (weighted_sum_nonneg w Hw). apply Forall_first_n.
      now constructor.
    + destruct n' as [|n']; [lia|]. simpl.
      specialize (IH (S i) n n' ltac:(lia)). lra.
Qed.

(** With non-negative gains the DCG does not decrease when the cutoff
    grows. *)
Theorem dcg_at_k_monotone (r : list R) (k k' : Z) (method : Z) :
  Forall (fun x => 0 <= x) r -> (0 <= k <= k')%Z ->
  method = 0%Z \/ method = 1%Z ->
  exists d d' : R,
    dcg_at_k r (Some k) method = Ok d /\
    dcg_at_k r (Some k') method = Ok d' /\
    d <= d'.
Proof.
  intros Hr Hk Hm.
  rewrite !dcg_at_k_valid_method by exact Hm.
  rewrite !slice_to_valid by (simpl; lia). simpl first_k.
  eexists. eexists. split; [reflexivity|]. split; [reflexivity|].
  rewrite !(dcg_spec_weighted method).
  apply weighted_sum_firstn_mono;
    [apply (gain_weight_nonneg method Hm)|exact Hr|lia].
Qed.

Lemma dcg_at_k_monotone_witness :
  exists d d' : R,
    dcg_at_k [3; 0; 2] (Some 1%Z) 0 = Ok d /\
    dcg_at_k [3; 0; 2] (Some 3%Z) 0 = Ok d' /\
    d <= d'.
Proof.
  apply (dcg_at_k_monotone [3; 0; 2] 1 3 0).
  - repeat constructor; lra.
  - lia.
  - now left.
Defined.
